(** * chainer.dataset.convert: batch assembly and host-to-device transfer

    A shallow embedding of [chainer/dataset/convert.py]: [to_device],
    [concat_examples], [_concat_arrays], [_concat_arrays_with_padding],
    [ConcatWithAsyncTransfer] and [Conveyer], followed by the properties
    of the specification stated over these definitions.

    Arrays are numpy's C-contiguous arrays: a dtype, a shape and the
    row-major list of the elements.  The element types covered are
    numpy's signed integer dtypes, with their wrap-around on conversion;
    floating point is outside the embedding. *)

From stdpp Require Import base numbers list gmap strings.
From Stdlib Require Import ZArith Lia.

Local Open Scope Z_scope.
Local Open Scope nat_scope.

(** ** Python outcomes *)

Inductive pykey :=
| KInt (i : nat)
| KStr (s : string).

(** [ValueError msg] is a [ValueError] raised by this module, with its
    message; [ShapeMismatch] is the [ValueError] numpy raises on operands
    whose shapes do not agree. *)
Inductive exn :=
| ValueError (msg : string)
| ShapeMismatch
| IndexError
| KeyError (key : pykey)
| TypeError
| AttributeError
| OverflowError
| UnboundLocalError (name : string).

(** A call returns, raises, or leaves the embedding: [Unmodelled] marks
    the behaviours of numpy that the embedding does not describe (shape
    arithmetic across ranks, object arrays, a tuple or a mapping used as
    a fill value). *)
Inductive result (A : Type) :=
| Ok (a : A)
| Raise (e : exn)
| Unmodelled.
Arguments Ok {A} a.
Arguments Raise {A} e.
Arguments Unmodelled {A}.

#[global] Instance result_ret : MRet result := @Ok.
#[global] Instance result_bind : MBind result := λ A B f m,
  match m with
  | Ok a => f a
  | Raise e => Raise e
  | Unmodelled => Unmodelled
  end.

Fixpoint foldM {A B} (f : A → B → result A) (a : A) (l : list B) : result A :=
  match l with
  | [] => Ok a
  | b :: l' => a' ← f a b; foldM f a' l'
  end.

(** ** numpy: dtypes and arrays *)

Inductive numpy_dtype := int8 | int16 | int32 | int64.

#[global] Instance numpy_dtype_eq_dec : EqDecision numpy_dtype.
Proof. solve_decision. Defined.

Definition bits (d : numpy_dtype) : Z :=
  match d with int8 => 8 | int16 => 16 | int32 => 32 | int64 => 64 end%Z.

Definition itemsize (d : numpy_dtype) : nat :=
  match d with int8 => 1 | int16 => 2 | int32 => 4 | int64 => 8 end.

Definition in_range (d : numpy_dtype) (z : Z) : Prop :=
  (- 2 ^ (bits d - 1) ≤ z < 2 ^ (bits d - 1))%Z.

#[global] Instance in_range_dec d z : Decision (in_range d z).
Proof. unfold in_range. apply _. Defined.

(** Conversion of an integer to a dtype (numpy's [astype], casting
    'unsafe'): two's complement wrap-around. *)
Definition wrap (d : numpy_dtype) (z : Z) : Z :=
  ((z + 2 ^ (bits d - 1)) `mod` 2 ^ bits d - 2 ^ (bits d - 1))%Z.

(** [numpy.result_type] on signed integer dtypes: the wider one. *)
Definition promote (d1 d2 : numpy_dtype) : numpy_dtype :=
  if (bits d1 <? bits d2)%Z then d2 else d1.

(** Where an array lives: a numpy array on the host, or a cupy array on
    an accelerator device. *)
Inductive residency :=
| Host
| Gpu (d : Z).

#[global] Instance residency_eq_dec : EqDecision residency.
Proof. solve_decision. Defined.

Record ndarray := {
  dtype : numpy_dtype;
  shape : list nat;
  data : list Z;
  resides : residency
}.

#[global] Instance ndarray_eq_dec : EqDecision ndarray.
Proof. solve_decision. Defined.

(** Number of cells of a shape ([ndarray.size]). *)
Fixpoint numel (s : list nat) : nat :=
  match s with
  | [] => 1
  | d :: s' => d * numel s'
  end.

Definition nbytes (a : ndarray) : nat := numel (shape a) * itemsize (dtype a).

(** Every array numpy builds has one element per cell, each within its
    dtype. *)
Definition wf_ndarray (a : ndarray) : Prop :=
  length (data a) = numel (shape a) ∧ Forall (in_range (dtype a)) (data a).

(** Row-major indexing. *)
Fixpoint in_bounds (idx s : list nat) : bool :=
  match idx, s with
  | [], [] => true
  | i :: idx', d :: s' => (i <? d) && in_bounds idx' s'
  | _, _ => false
  end.

Fixpoint ravel (s idx : list nat) : nat :=
  match s, idx with
  | _ :: s', i :: idx' => i * numel s' + ravel s' idx'
  | _, _ => 0
  end.

Fixpoint unravel (s : list nat) (k : nat) : list nat :=
  match s with
  | [] => []
  | _ :: s' => k / numel s' :: unravel s' (k `mod` numel s')
  end.

(** [a[idx]] for a full integer index. *)
Definition getitem (a : ndarray) (idx : list nat) : option Z :=
  if in_bounds idx (shape a) then data a !! ravel (shape a) idx else None.

(** [a[i]]: the i-th slice along the leading axis. *)
Definition leading_slice (a : ndarray) (i : nat) : option ndarray :=
  match shape a with
  | [] => None
  | n :: s =>
      if decide (i < n) then
        Some {| dtype := dtype a; shape := s;
                data := take (numel s) (drop (i * numel s) (data a));
                resides := resides a |}
      else None
  end.

(** Iterating over an array yields its leading slices. *)
Definition unstack (a : ndarray) : list ndarray :=
  match shape a with
  | [] => []
  | n :: s =>
      (λ i, {| dtype := dtype a; shape := s;
               data := take (numel s) (drop (i * numel s) (data a));
               resides := resides a |}) <$> seq 0 n
  end.

(** [xp.full(shape, fill, dtype=d)] on the module and device of
    [arrays[0]].  A Python integer that the dtype cannot hold is refused
    with [OverflowError] (numpy 2; releases before it wrapped the value
    around). *)
Definition full (s : list nat) (fill : Z) (d : numpy_dtype) (dev : residency)
  : result ndarray :=
  if decide (in_range d fill) then
    Ok {| dtype := d; shape := s; data := replicate (numel s) fill; resides := dev |}
  else Raise OverflowError.

(** Broadcast of a source extent [s] onto the extent [min s r] selected
    by [slice(s)] in a result axis of extent [r]. *)
Definition fits (src_shape region : list nat) : bool :=
  forallb (λ '(s, r), (s <=? r) || (s =? 1)) (zip src_shape region).

(** [result[(i,) + slices] = src] with [slices = tuple(slice(dim) for dim
    in src.shape)]: every cell [(i, idx)] with [idx] inside [src.shape]
    takes [src[idx]] converted to the dtype of [result]. *)
Definition setitem_block (res : ndarray) (i : nat) (src : ndarray) : result ndarray :=
  match shape res with
  | [] => Raise IndexError
  | n :: region =>
      if decide (length region < length (shape src)) then Raise IndexError
      else if decide (n ≤ i) then Raise IndexError
      else if decide (length (shape src) < length region) then Unmodelled
      else if negb (fits (shape src) region) then
        Raise ShapeMismatch
      else
        Ok {| dtype := dtype res; shape := shape res;
              data := imap (λ k old,
                        match unravel (shape res) k with
                        | b :: idx =>
                            if (b =? i) && in_bounds idx (shape src)
                            then wrap (dtype res)
                                   (default 0%Z (data src !! ravel (shape src) idx))
                            else old
                        | [] => old
                        end) (data res);
              resides := resides res |}
  end.

(** [array[None]]: a new leading axis of extent one. *)
Definition expand_dims (a : ndarray) : ndarray :=
  {| dtype := dtype a; shape := 1 :: shape a; data := data a; resides := resides a |}.

(** [xp.concatenate(arrays)] along axis 0, on the module and device of
    the first array. *)
Definition concatenate (arrays : list ndarray) : result ndarray :=
  match arrays with
  | [] => Raise ShapeMismatch
  | a0 :: _ =>
      match shape a0 with
      | [] => Raise ShapeMismatch
      | _ :: s0 =>
          if forallb (λ a, bool_decide (tail (shape a) = s0 ∧ shape a ≠ [])) arrays then
            let d := foldl promote (dtype a0) (dtype <$> arrays) in
            Ok {| dtype := d;
                  shape := sum_list (default 0 ∘ head ∘ shape <$> arrays) :: s0;
                  data := concat ((λ a, wrap d <$> data a) <$> arrays);
                  resides := resides a0 |}
          else Raise ShapeMismatch
      end
  end.

(** ** Values held by an example *)

Inductive value :=
| VInt (z : Z)
| VArr (a : ndarray).

Definition is_ndarray (v : value) : bool :=
  match v with VArr _ => true | VInt _ => false end.

(** [numpy.asarray] of a list of built-in integers: a one-dimensional
    int64 array on the host.  Lists that numpy turns into object arrays
    or other dtypes are outside the embedding. *)
Definition asarray (l : list value) : result ndarray :=
  if forallb (λ v, match v with
                   | VInt z => bool_decide (in_range int64 z)
                   | VArr _ => false
                   end) l then
    Ok {| dtype := int64; shape := [length l];
          data := (λ v, match v with VInt z => z | VArr _ => 0%Z end) <$> l;
          resides := Host |}
  else Unmodelled.

(** Attribute access [array.shape], [array.dtype] and indexing
    [array[None]] on a value that may be a built-in integer. *)
Definition attr (v : value) : result ndarray :=
  match v with
  | VArr a => Ok a
  | VInt _ => Raise AttributeError
  end.

Definition subscript_None (v : value) : result ndarray :=
  match v with
  | VArr a => Ok (expand_dims a)
  | VInt _ => Raise TypeError
  end.

Fixpoint mapR {A B} (f : A → result B) (l : list A) : result (list B) :=
  match l with
  | [] => Ok []
  | x :: l' => y ← f x; ys ← mapR f l'; Ok (y :: ys)
  end.

(** ** [_concat_arrays_with_padding] *)

(** One round of the loop over [arrays[1:]]: [shape] becomes the
    elementwise maximum when it differs from [array.shape]. *)
Definition max_shape_step (shp : list nat) (array : value) : result (list nat) :=
  a ← attr array;
  if decide (length (shape a) = length shp) then
    if bool_decide (shp ≠ shape a) then Ok (zip_with Nat.max shp (shape a))
    else Ok shp
  else Unmodelled.

(** One round of the loop over [range(len(arrays))]:
    [src = arrays[i]; result[(i,) + slices] = src]. *)
Definition write_example (res : ndarray) (ia : nat * value) : result ndarray :=
  let '(i, array) := ia in src ← attr array; setitem_block res i src.

Definition _concat_arrays_with_padding (arrays : list value) (padding : Z)
  : result ndarray :=
  match arrays with
  | [] => Raise IndexError
  | first :: rest =>
      a0 ← attr first;
      shp ← foldM max_shape_step (shape a0) rest;
      let shp := length arrays :: shp in
      res ← full shp padding (dtype a0) (resides a0);
      foldM write_example res (zip (seq 0 (length arrays)) arrays)
  end.

(** ** [_concat_arrays] *)

Definition _concat_arrays (arrays : list value) (padding : option Z)
  : result ndarray :=
  match arrays with
  | [] => Raise IndexError
  | first :: _ =>
      arrays ← (if is_ndarray first then Ok arrays
                else a ← asarray arrays; Ok (VArr <$> unstack a));
      match padding with
      | Some p => _concat_arrays_with_padding arrays p
      | None => xs ← mapR subscript_None arrays; concatenate xs
      end
  end.

(** ** [chainer.cuda] *)

Module cuda.

(** Modelled from the spec: [cuda.to_cpu] and [cuda.to_gpu] are defined
    in [chainer/cuda.py]; "copy to host if negative; copy to the named
    accelerator otherwise".  The copy keeps dtype, shape and contents and
    lives in host memory, respectively on the named device.  The device
    is taken to be usable: the memory the copy takes on the device and
    the error the runtime raises for an invalid device id are not
    represented, and the properties about placement are stated for calls
    on a usable device. *)
Definition to_cpu (x : ndarray) : ndarray :=
  {| dtype := dtype x; shape := shape x; data := data x; resides := Host |}.

Definition to_gpu (x : ndarray) (device : Z) : ndarray :=
  {| dtype := dtype x; shape := shape x; data := data x; resides := Gpu device |}.

End cuda.

(** ** [to_device] *)

Definition to_device (device : option Z) (x : ndarray) : ndarray :=
  match device with
  | None => x
  | Some device =>
      if (device <? 0)%Z then cuda.to_cpu x
      else cuda.to_gpu x device
  end.

(** ** Examples, batches and padding *)

(** A Python [dict] with string keys, in insertion order. *)
Definition pydict (V : Type) : Type := list (string * V).

Fixpoint dict_lookup {V} (d : pydict V) (key : string) : option V :=
  match d with
  | [] => None
  | (k, v) :: d' => if decide (k = key) then Some v else dict_lookup d' key
  end.

(** [d[key]] *)
Definition dict_getitem {V} (d : pydict V) (key : pykey) : result V :=
  match key with
  | KStr k =>
      match dict_lookup d k with
      | Some v => Ok v
      | None => Raise (KeyError key)
      end
  | KInt _ => Raise (KeyError key)
  end.

(** [d[key] = v] *)
Fixpoint dict_setitem {V} (d : pydict V) (key : string) (v : V) : pydict V :=
  match d with
  | [] => [(key, v)]
  | (k, w) :: d' =>
      if decide (k = key) then (k, v) :: d' else (k, w) :: dict_setitem d' key v
  end.

Definition keys {V} (d : pydict V) : list string := fst <$> d.

(** [s[i]] on a list or a tuple *)
Definition seq_getitem {V} (t : list V) (i : nat) : result V :=
  match t !! i with
  | Some v => Ok v
  | None => Raise IndexError
  end.

(** A batch is a list of examples of one structure: arrays (or built-in
    scalars), tuples, or mappings. *)
Inductive batch_t :=
| ArrayBatch (examples : list value)
| TupleBatch (examples : list (list value))
| DictBatch (examples : list (pydict value)).

Definition len (batch : batch_t) : nat :=
  match batch with
  | ArrayBatch l => length l
  | TupleBatch l => length l
  | DictBatch l => length l
  end.

(** The [padding] argument: [None] or a scalar, a tuple with one entry
    per slot, or a mapping with one entry per key. *)
Inductive padding_t :=
| PadValue (p : option Z)
| PadTuple (ps : list (option Z))
| PadDict (pd : pydict (option Z)).

(** [padding[i]] in the tuple branch, after
    [if not isinstance(padding, tuple): padding = [padding] * len(first_elem)].
    A mapping used as the fill value of every slot is outside the
    embedding. *)
Definition tuple_padding (padding : padding_t) (i : nat) : result (option Z) :=
  match padding with
  | PadTuple ps => seq_getitem ps i
  | PadValue p => Ok p
  | PadDict _ => Unmodelled
  end.

(** [padding[key]] in the dict branch, after
    [if not isinstance(padding, dict): padding = {key: padding for key in first_elem}].
    A tuple used as the fill value of every slot is outside the
    embedding. *)
Definition dict_padding (padding : padding_t) (first_elem : pydict value)
    (key : pykey) : result (option Z) :=
  match padding with
  | PadDict pd => dict_getitem pd key
  | PadValue p => dict_getitem ((λ k, (k, p)) <$> keys first_elem) key
  | PadTuple _ =>
      _ ← dict_getitem ((λ k, (k, ())) <$> keys first_elem) key; Unmodelled
  end.

(** [padding] in the branch of plain arrays. *)
Definition array_padding (padding : padding_t) : result (option Z) :=
  match padding with
  | PadValue p => Ok p
  | PadTuple _ | PadDict _ => Unmodelled
  end.

(** What a converter returns: an array, a tuple of arrays, or a mapping
    of arrays. *)
Inductive batched :=
| BArray (a : ndarray)
| BTuple (l : list ndarray)
| BDict (d : pydict ndarray).

(** ** [concat_examples] *)

(** One round of [for key in first_elem] in the dict branch:
    [result[key] = to_device(device, _concat_arrays(
       [example[key] for example in batch], padding[key]))]. *)
Definition concat_key (examples : list (pydict value)) (device : option Z)
    (padding : padding_t) (first_elem : pydict value)
    (acc : pydict ndarray) (key : string) : result (pydict ndarray) :=
  column ← mapR (λ example, dict_getitem example (KStr key)) examples;
  p ← dict_padding padding first_elem (KStr key);
  a ← _concat_arrays column p;
  Ok (dict_setitem acc key (to_device device a)).

Definition concat_examples (batch : batch_t) (device : option Z)
    (padding : padding_t) : result batched :=
  if decide (len batch = 0) then Raise (ValueError "batch is empty")
  else
    match batch with
    | TupleBatch examples =>
        first_elem ← seq_getitem examples 0;
        result ← foldM (λ result i,
                    column ← mapR (λ example, seq_getitem example i) examples;
                    p ← tuple_padding padding i;
                    a ← _concat_arrays column p;
                    Ok (result ++ [to_device device a]))
                  [] (seq 0 (length first_elem));
        Ok (BTuple result)
    | DictBatch examples =>
        first_elem ← seq_getitem examples 0;
        result ← foldM (concat_key examples device padding first_elem)
                  [] (keys first_elem);
        Ok (BDict result)
    | ArrayBatch examples =>
        p ← array_padding padding;
        a ← _concat_arrays examples p;
        Ok (BArray (to_device device a))
    end.

(** ** The accelerator runtime

    The calls into [cupy.cuda] are recorded in the order they are issued;
    pinned host buffers and device buffers are named by the number the
    allocator hands out. *)

Inductive event :=
| DeviceSynchronize
| AllocPinned (buf nbytes : nat)
| AllocDevice (buf : nat) (device : Z) (nbytes : nat)
| HostCopy (pin : nat)
| MemcpyAsync (pin cp stream : nat)
| StreamCreate (stream : nat) (device : Z).

#[global] Instance event_eq_dec : EqDecision event.
Proof. solve_decision. Defined.

Record runtime := {
  fresh : nat;
  log : list event
}.

Definition emit (es : list event) (rt : runtime) : runtime :=
  {| fresh := fresh rt; log := log rt ++ es |}.

(** An allocated array: the buffer it owns and its current contents. *)
Record buffer := {
  buf_id : nat;
  buf_array : ndarray
}.

(** Code that updates an object and the runtime, and may raise. *)
Definition stateR (S A : Type) : Type := S → result A * S.

#[global] Instance stateR_ret {S} : MRet (stateR S) := λ A a s, (Ok a, s).
#[global] Instance stateR_bind {S} : MBind (stateR S) := λ A B f m s,
  match m s with
  | (Ok a, s') => f a s'
  | (Raise e, s') => (Raise e, s')
  | (Unmodelled, s') => (Unmodelled, s')
  end.

Definition lift {S A} (r : result A) : stateR S A := λ s, (r, s).

Fixpoint foldS {S A B} (f : A → B → stateR S A) (a : A) (l : list B) : stateR S A :=
  match l with
  | [] => mret a
  | b :: l' => a' ← f a b; foldS f a' l'
  end.

(** ** numpy: [dst[...] = src] *)

(** Leading axes of extent one are dropped from the source while it has
    more axes than the destination. *)
Fixpoint strip_ones (rank : nat) (s : list nat) : list nat :=
  match s with
  | 1 :: s' => if rank <? length s then strip_ones rank s' else s
  | _ => s
  end.

(** The source shape aligned to the destination's rank, when it
    broadcasts. *)
Definition broadcast_shape (src dst : list nat) : option (list nat) :=
  let src := strip_ones (length dst) src in
  if length src <=? length dst then
    let aligned := replicate (length dst - length src) 1 ++ src in
    if forallb (λ '(s, d), (s =? d) || (s =? 1)) (zip aligned dst)
    then Some aligned else None
  else None.

Definition assign (dst src : ndarray) : result ndarray :=
  match broadcast_shape (shape src) (shape dst) with
  | None => Raise ShapeMismatch
  | Some s =>
      Ok {| dtype := dtype dst; shape := shape dst;
            data := imap (λ k _,
                      let idx := zip_with (λ e i, if e =? 1 then 0 else i)
                                   s (unravel (shape dst) k) in
                      wrap (dtype dst) (default 0%Z (data src !! ravel s idx)))
                    (data dst);
            resides := resides dst |}
  end.

(** ** [Conveyer] *)

Module Conveyer.

Record t := {
  device : option Z;
  stream : option nat;
  array_set : list (option buffer * option buffer)
}.

Definition __init__ (device : option Z) (stream : option nat) : t :=
  {| device := device; stream := stream;
     array_set := [(None, None); (None, None)] |}.

(** The device and the stream of the asynchronous path: absent when
    [self.device is None or self.device < 0 or self.stream is None]. *)
Definition asynchronous (self : t) : option (Z * nat) :=
  match device self, stream self with
  | Some d, Some s => if (d <? 0)%Z then None else Some (d, s)
  | _, _ => None
  end.

Definition with_array_set (self : t) (l : list (option buffer * option buffer)) : t :=
  {| device := device self; stream := stream self; array_set := l |}.

(** Memory from [alloc_pinned_memory] and [cupy.empty_like] is
    uninitialised; both buffers are written before they are read. *)
Definition empty_like (array : ndarray) (where_ : residency) : ndarray :=
  {| dtype := dtype array; shape := shape array;
     data := replicate (numel (shape array)) 0%Z; resides := where_ |}.

Definition __call__ (array : ndarray) : stateR (t * runtime) ndarray :=
  λ '(self, rt),
  match asynchronous self with
  | None => (Ok (to_device (device self) array), (self, rt))
  | Some (dev, strm) =>
      match array_set self with
      | [] => (Raise IndexError, (self, rt))
      | (pin_array, cp_array) :: rest =>
          let self := with_array_set self rest in
          let pin_array :=
            match pin_array with
            | Some pin =>
                if decide (nbytes (buf_array pin) ≠ nbytes array) then None
                else Some pin
            | None => None
            end in
          let '(pin_array, cp_array, rt) :=
            match pin_array with
            | None =>
                let pin := {| buf_id := fresh rt;
                              buf_array := empty_like array Host |} in
                let cp := {| buf_id := S (fresh rt);
                             buf_array := empty_like array (Gpu dev) |} in
                (pin, Some cp,
                 {| fresh := S (S (fresh rt));
                    log := log rt ++ [DeviceSynchronize;
                                      AllocPinned (buf_id pin) (nbytes array);
                                      AllocDevice (buf_id cp) dev (nbytes array)] |})
            | Some pin => (pin, cp_array, rt)
            end in
          match assign (buf_array pin_array) array with
          | Ok filled =>
              let pin_array := {| buf_id := buf_id pin_array; buf_array := filled |} in
              let rt := emit [HostCopy (buf_id pin_array)] rt in
              match cp_array with
              | None => (Raise AttributeError, (self, rt))
              | Some cp =>
                  let cp_array :=
                    {| buf_id := buf_id cp;
                       buf_array := {| dtype := dtype (buf_array cp);
                                       shape := shape (buf_array cp);
                                       data := data filled;
                                       resides := resides (buf_array cp) |} |} in
                  let rt := emit [MemcpyAsync (buf_id pin_array) (buf_id cp_array) strm] rt in
                  (Ok (buf_array cp_array),
                   (with_array_set self (array_set self ++ [(Some pin_array, Some cp_array)]), rt))
              end
          | Raise e => (Raise e, (self, rt))
          | Unmodelled => (Unmodelled, (self, rt))
          end
      end
  end.

Definition synchronize : stateR (t * runtime) () :=
  λ '(self, rt),
  match stream self with
  | Some _ => (Ok (), (self, emit [DeviceSynchronize] rt))
  | None => (Ok (), (self, rt))
  end.

End Conveyer.

(** ** [ConcatWithAsyncTransfer] *)

Module ConcatWithAsyncTransfer.

Record t := {
  stream : option nat;
  conveyer : gmap nat Conveyer.t
}.

Definition __init__ (stream : option nat) : t :=
  {| stream := stream; conveyer := ∅ |}.

(** [if device is not None and device >= 0 and self.stream is None:
      self.stream = cuda.Stream(non_blocking=True)] *)
Definition create_stream (device : option Z) : stateR (t * runtime) () :=
  λ '(self, rt),
  match device, stream self with
  | Some d, None =>
      if (0 <=? d)%Z then
        (Ok (), ({| stream := Some (fresh rt); conveyer := conveyer self |},
                 {| fresh := S (fresh rt);
                    log := log rt ++ [StreamCreate (fresh rt) d] |}))
      else (Ok (), (self, rt))
  | _, _ => (Ok (), (self, rt))
  end.

(** [if i not in self.conveyer: self.conveyer[i] = Conveyer(device, self.stream)] *)
Definition ensure_conveyer (i : nat) (device : option Z) : stateR (t * runtime) () :=
  λ '(self, rt),
  match conveyer self !! i with
  | Some _ => (Ok (), (self, rt))
  | None =>
      (Ok (), ({| stream := stream self;
                  conveyer := <[i := Conveyer.__init__ device (stream self)]> (conveyer self) |},
               rt))
  end.

(** [m(self.conveyer[i])] for a method [m] of the channel, which is
    updated in place. *)
Definition on_conveyer {A} (i : nat) (m : stateR (Conveyer.t * runtime) A)
  : stateR (t * runtime) A :=
  λ '(self, rt),
  match conveyer self !! i with
  | None => (Raise (KeyError (KInt i)), (self, rt))
  | Some c =>
      let '(r, (c, rt)) := m (c, rt) in
      (r, ({| stream := stream self; conveyer := <[i := c]> (conveyer self) |}, rt))
  end.

(** Reading a local variable of the running call. *)
Definition load_local (name : string) (v : option nat) : result nat :=
  match v with
  | Some i => Ok i
  | None => Raise (UnboundLocalError name)
  end.

Definition __call__ (batch : batch_t) (device : option Z) (padding : padding_t)
  : stateR (t * runtime) batched :=
  if decide (len batch = 0) then lift (Raise (ValueError "batch is empty"))
  else
    _ ← create_stream device;
    match batch with
    | TupleBatch examples =>
        first_elem ← lift (seq_getitem examples 0);
        result ← foldS (λ result i,
                    _ ← ensure_conveyer i device;
                    column ← lift (mapR (λ example, seq_getitem example i) examples);
                    p ← lift (tuple_padding padding i);
                    a ← lift (_concat_arrays column p);
                    a ← on_conveyer i (Conveyer.__call__ a);
                    mret (result ++ [a]))
                  [] (seq 0 (length first_elem));
        _ ← foldS (λ _ i, on_conveyer i Conveyer.synchronize)
              () (seq 0 (length first_elem));
        mret (BTuple result)
    | DictBatch examples =>
        first_elem ← lift (seq_getitem examples 0);
        (* [i] is a local of the call that only the loops of the tuple
           branch assign: it is unbound here. *)
        let i : option nat := None in
        result ← foldS (λ result key,
                    i ← lift (load_local "i" i);
                    _ ← ensure_conveyer i device;
                    column ← lift (mapR (λ example, dict_getitem example (KInt i)) examples);
                    p ← lift (dict_padding padding first_elem (KInt i));
                    a ← lift (_concat_arrays column p);
                    a ← on_conveyer i (Conveyer.__call__ a);
                    mret (dict_setitem result key a))
                  [] (keys first_elem);
        _ ← foldS (λ _ key,
                i ← lift (load_local "i" i);
                on_conveyer i Conveyer.synchronize)
              () (keys first_elem);
        mret (BDict result)
    | ArrayBatch examples =>
        p ← lift (array_padding padding);
        a ← lift (_concat_arrays examples p);
        mret (BArray (to_device device a))
    end.

End ConcatWithAsyncTransfer.

(** * Vocabulary of the properties, and sample inputs *)

(** The extent of axis [k] that holds every example. *)
Definition max_extent (arrays : list ndarray) (k : nat) : nat :=
  max_list ((λ a, default 0 (shape a !! k)) <$> arrays).

(** The dtype and the contents [xp.concatenate] gives the arrays of a
    batch. *)
Definition result_dtype (arrays : list ndarray) (a0 : ndarray) : numpy_dtype :=
  foldl promote (dtype a0) (dtype <$> arrays).

Definition stacked (arrays : list ndarray) (a0 : ndarray) : ndarray :=
  {| dtype := result_dtype arrays a0;
     shape := length arrays :: shape a0;
     data := concat ((λ a, wrap (result_dtype arrays a0) <$> data a) <$> arrays);
     resides := resides a0 |}.

(** What C2 literally says of the cells: inside an example's extent the
    example's own element, outside it the padding value. *)
Definition padded_cells_as_claimed (arrays : list ndarray) (padding : Z) : Prop :=
  ∃ res, _concat_arrays (VArr <$> arrays) (Some padding) = Ok res ∧
    ∀ i a idx, arrays !! i = Some a → in_bounds (i :: idx) (shape res) = true →
      getitem res (i :: idx)
      = if in_bounds idx (shape a) then getitem a idx else Some padding.

Definition ragged_int8_int16 : list ndarray :=
  [ {| dtype := int8; shape := [1]; data := [1%Z]; resides := Host |};
    {| dtype := int16; shape := [2]; data := [300%Z; 2%Z]; resides := Host |} ].

Definition ragged_int64 : list ndarray :=
  [ {| dtype := int64; shape := [2]; data := [1%Z; 2%Z]; resides := Host |};
    {| dtype := int64; shape := [3]; data := [3%Z; 4%Z; 5%Z]; resides := Host |} ].

Definition square_int64 : list ndarray :=
  [ {| dtype := int64; shape := [2]; data := [1%Z; 2%Z]; resides := Host |};
    {| dtype := int64; shape := [2]; data := [3%Z; 4%Z]; resides := Host |} ].

Definition square_int8 : list ndarray :=
  [ {| dtype := int8; shape := [2]; data := [1%Z; 2%Z]; resides := Host |};
    {| dtype := int8; shape := [2]; data := [3%Z; 4%Z]; resides := Host |} ].

(** What C10 literally says: whatever the padding value, the padded
    concatenation is the unpadded one. *)
Definition padding_irrelevant_as_claimed (arrays : list ndarray) (padding : Z) : Prop :=
  _concat_arrays (VArr <$> arrays) (Some padding) = _concat_arrays (VArr <$> arrays) None.

(** The example scenario of the specification:
    [[{"x": [1,2], "y": 0}, {"x": [3,4,5], "y": 1}]], the "x" entries
    being arrays of dtype [d], with padding [{"x": 0, "y": None}]. *)
Definition scenario_first (d : numpy_dtype) : pydict value :=
  [("x"%string, VArr {| dtype := d; shape := [2]; data := [1; 2]%Z; resides := Host |});
   ("y"%string, VInt 0)].

Definition scenario_examples (d : numpy_dtype) : list (pydict value) :=
  [ scenario_first d;
    [("x"%string, VArr {| dtype := d; shape := [3]; data := [3; 4; 5]%Z; resides := Host |});
     ("y"%string, VInt 1)] ].

Definition scenario_batch (d : numpy_dtype) : batch_t :=
  DictBatch (scenario_examples d).

Definition scenario_padding : padding_t :=
  PadDict [("x"%string, Some 0%Z); ("y"%string, None)].

(** The state the call leaves behind when its first statement after the
    stream set-up raises. *)
Definition after_create_stream (device : option Z)
    (st : ConcatWithAsyncTransfer.t * runtime) : ConcatWithAsyncTransfer.t * runtime :=
  (ConcatWithAsyncTransfer.create_stream device st).2.

(** What a call issued to the runtime. *)
Definition emitted (rt rt' : runtime) : list event :=
  drop (length (log rt)) (log rt').

(** Copies, as opposed to synchronisations and allocations. *)
Definition is_transfer (e : event) : bool :=
  match e with
  | HostCopy _ | MemcpyAsync _ _ _ => true
  | _ => false
  end.

(** The pinned buffer of the pair has the byte size of the array. *)
Definition reusable (pair : option buffer * option buffer) (array : ndarray) : bool :=
  match pair.1 with
  | Some pin => bool_decide (nbytes (buf_array pin) = nbytes array)
  | None => false
  end.

Definition pair_ids (pair : option buffer * option buffer) : option nat * option nat :=
  (buf_id <$> pair.1, buf_id <$> pair.2).

(** A sequence of transfers through one channel, as a loop issues them,
    with the value each call returns as it is at the return of that
    call. *)
Fixpoint calls (arrays : list ndarray) : stateR (Conveyer.t * runtime) (list ndarray) :=
  match arrays with
  | [] => mret []
  | a :: l => r ← Conveyer.__call__ a; rs ← calls l; mret (r :: rs)
  end.

(** What C5 says of two sequential calls with one array: the second
    neither synchronises nor allocates. *)
Definition second_call_reuses_as_claimed (self : Conveyer.t) (rt : runtime)
    (array : ndarray) : Prop :=
  ∀ r1 st1 r2 st2,
    Conveyer.__call__ array (self, rt) = (r1, st1) →
    Conveyer.__call__ array st1 = (r2, st2) →
    forallb is_transfer (emitted st1.2 st2.2) = true.

Definition fresh_channel : Conveyer.t := Conveyer.__init__ (Some 0%Z) (Some 7).

Definition pair_of_int64 : ndarray :=
  {| dtype := int64; shape := [2]; data := [1; 2]%Z; resides := Host |}.

(** What C9 says of the number of pairs: two after any sequence of
    calls, however the sequence ends. *)
Definition always_two_as_claimed (self : Conveyer.t) (rt : runtime)
    (arrays : list ndarray) : Prop :=
  ∀ r st', calls arrays (self, rt) = (r, st') → length (Conveyer.array_set st'.1) = 2.

Definition two_by_three : ndarray :=
  {| dtype := int64; shape := [2; 3]; data := [1; 2; 3; 4; 5; 6]%Z; resides := Host |}.

Definition three_by_two : ndarray :=
  {| dtype := int64; shape := [3; 2]; data := [1; 2; 3; 4; 5; 6]%Z; resides := Host |}.

(** The array of slot [i] of a batch of tuples, before placement:
    [_concat_arrays([example[i] for example in batch], padding[i])]. *)
Definition slot_array (examples : list (list value)) (padding : padding_t)
    (i : nat) : result ndarray :=
  column ← mapR (λ example, seq_getitem example i) examples;
  p ← tuple_padding padding i;
  _concat_arrays column p.

(** The array of key [key] of a batch of mappings, before placement:
    [_concat_arrays([example[key] for example in batch], padding[key])]. *)
Definition key_array (examples : list (pydict value)) (padding : padding_t)
    (first_elem : pydict value) (key : string) : result ndarray :=
  column ← mapR (λ example, dict_getitem example (KStr key)) examples;
  p ← dict_padding padding first_elem (KStr key);
  _concat_arrays column p.

(** [to_device] applied to every array of a result. *)
Definition place (device : option Z) (b : batched) : batched :=
  match b with
  | BArray a => BArray (to_device device a)
  | BTuple l => BTuple (to_device device <$> l)
  | BDict d => BDict (prod_map id (to_device device) <$> d)
  end.

(** A built-in integer as numpy holds it: a zero-dimensional int64. *)
Definition scalar0 (z : Z) : ndarray :=
  {| dtype := int64; shape := []; data := [z]; resides := Host |}.

(** The arrays among the values of a column are well formed. *)
Definition wf_value (v : value) : Prop :=
  match v with
  | VArr a => wf_ndarray a
  | VInt _ => True
  end.

(** The pinned copy of an array. *)
Definition pinned (array : ndarray) : ndarray :=
  {| dtype := dtype array; shape := shape array; data := data array; resides := Host |}.

(** A pair that holds buffers for arrays of one shape and dtype on
    device [d]. *)
Definition holds (d : Z) (sh : list nat) (dt : numpy_dtype)
    (pair : option buffer * option buffer) : Prop :=
  ∃ pin cp, pair = (Some pin, Some cp) ∧
    shape (buf_array pin) = sh ∧ dtype (buf_array pin) = dt ∧
    length (data (buf_array pin)) = numel sh ∧
    resides (buf_array pin) = Host ∧
    shape (buf_array cp) = sh ∧ dtype (buf_array cp) = dt ∧
    resides (buf_array cp) = Gpu d.

(** The channel that slot [i] uses in a call with [device]: the
    registered one, else a new one. *)
Definition channel_of (self : ConcatWithAsyncTransfer.t) (device : option Z)
    (i : nat) : Conveyer.t :=
  default (Conveyer.__init__ device (ConcatWithAsyncTransfer.stream self))
          (ConcatWithAsyncTransfer.conveyer self !! i).

(** A channel whose next call places an array as [to_device dev0] does:
    it is on the synchronous path with device [dev0], or it is on the
    asynchronous path to that device and the pair it pops next is empty
    (then the array has to be well formed). *)
Definition ready (dev0 : option Z) (wf : Prop) (c : Conveyer.t) : Prop :=
  (Conveyer.asynchronous c = None ∧ Conveyer.device c = dev0) ∨
  (wf ∧ ∃ d s rest, Conveyer.asynchronous c = Some (d, s) ∧ dev0 = Some d ∧
          Conveyer.array_set c = (None, None) :: rest).

(** The device argument asks for no accelerator: [None] or negative. *)
Definition host_only (device : option Z) : Prop :=
  from_option (λ d, (d < 0)%Z) True device.

(** Code of the converter that keeps the stream of the converter and
    every registered channel slot. *)
Definition keeps {A} (m : stateR (ConcatWithAsyncTransfer.t * runtime) A) : Prop :=
  ∀ self rt,
    ConcatWithAsyncTransfer.stream (m (self, rt)).2.1 = ConcatWithAsyncTransfer.stream self ∧
    ∀ j, is_Some (ConcatWithAsyncTransfer.conveyer self !! j) →
         is_Some (ConcatWithAsyncTransfer.conveyer (m (self, rt)).2.1 !! j).

(** Asynchronous copies from a pinned buffer to the device. *)
Definition is_memcpy (e : event) : bool :=
  match e with
  | MemcpyAsync _ _ _ => true
  | _ => false
  end.

(** Code of the converter, run for a tuple of [n] slots, that keeps the
    stream of every registered channel, only appends to the log, and
    starts a copy only on the stream of a channel of one of the slots. *)
Definition traced {A} (n : nat) (m : stateR (ConcatWithAsyncTransfer.t * runtime) A)
  : Prop :=
  ∀ self rt,
    (∀ j c, ConcatWithAsyncTransfer.conveyer self !! j = Some c →
       ∃ c', ConcatWithAsyncTransfer.conveyer (m (self, rt)).2.1 !! j = Some c' ∧
             Conveyer.stream c' = Conveyer.stream c) ∧
    ∃ es, log (m (self, rt)).2.2 = log rt ++ es ∧
      (existsb is_memcpy es = true →
       ∃ j c, j < n ∧ ConcatWithAsyncTransfer.conveyer (m (self, rt)).2.1 !! j = Some c ∧
              is_Some (Conveyer.stream c)).

(** The state of the converter and the runtime after a sequence of
    calls, each given by its batch, device and padding, whether the
    calls return or raise (a call that raises leaves the state it has
    reached). *)
Definition after_calls (cs : list (batch_t * option Z * padding_t))
    (st : ConcatWithAsyncTransfer.t * runtime) : ConcatWithAsyncTransfer.t * runtime :=
  foldl (λ st '(batch, device, padding),
           (ConcatWithAsyncTransfer.__call__ batch device padding st).2) st cs.

(** Code of the converter that keeps every registered channel and its
    device. *)
Definition fixes_devices {A} (m : stateR (ConcatWithAsyncTransfer.t * runtime) A) : Prop :=
  ∀ self rt j c,
    ConcatWithAsyncTransfer.conveyer self !! j = Some c →
    ∃ c', ConcatWithAsyncTransfer.conveyer (m (self, rt)).2.1 !! j = Some c' ∧
          Conveyer.device c' = Conveyer.device c.

(** The object a call on the asynchronous path returns: the device
    buffer of the pair it has just appended
    ([self.array_set.append([pin_array, cp_array]); return cp_array]).
    The caller receives this buffer itself, not a copy of it. *)
Definition handed_out (self : Conveyer.t) : option buffer :=
  match Conveyer.asynchronous self with
  | Some _ => last (Conveyer.array_set self) ≫= snd
  | None => None
  end.

(** A sequence of transfers through one channel, as a loop issues them,
    that keeps for every call which device buffer it returned (when it
    returned a buffer of the channel) beside the contents of that buffer
    at the return of the call. *)
Fixpoint transfers (arrays : list ndarray)
  : stateR (Conveyer.t * runtime) (list (option nat * ndarray)) :=
  match arrays with
  | [] => mret []
  | a :: l =>
      r ← Conveyer.__call__ a;
      ref ← (λ st, (Ok (buf_id <$> handed_out st.1), st));
      rs ← transfers l;
      mret ((ref, r) :: rs)
  end.

(** The contents, now, of the device buffer [id] of the channel: what a
    caller who kept the array returned by an earlier call reads. *)
Definition device_array (self : Conveyer.t) (id : nat) : option ndarray :=
  buf_array <$> head (filter (λ cp, buf_id cp = id) (omap snd (Conveyer.array_set self))).

(** The buffer pair of transfer [k] (counted from 0) of a stream of
    arrays of one size through a new channel, the allocator being at
    [f]: the pinned buffers [f] and [f + 2] and the device buffers
    [f + 1] and [f + 3] serve the even and the odd transfers. *)
Definition pair_at (f : nat) (d : Z) (k : nat) (a : ndarray)
  : option buffer * option buffer :=
  (Some {| buf_id := f + 2 * (k mod 2); buf_array := pinned a |},
   Some {| buf_id := f + 1 + 2 * (k mod 2); buf_array := cuda.to_gpu a d |}).

(** Entry [i] (0 or 1) of [array_set] once the arrays have gone through:
    the pairs of the last two transfers, in that order, before them the
    pairs that are still empty. *)
Definition retained (f : nat) (d : Z) (arrays : list ndarray) (i : nat)
  : option buffer * option buffer :=
  if decide (2 ≤ length arrays + i) then
    match arrays !! (length arrays + i - 2) with
    | Some a => pair_at f d (length arrays + i - 2) a
    | None => (None, None)
    end
  else (None, None).

Definition three_pairs : list ndarray :=
  [ {| dtype := int64; shape := [2]; data := [1; 2]%Z; resides := Host |};
    {| dtype := int64; shape := [2]; data := [3; 4]%Z; resides := Host |};
    {| dtype := int64; shape := [2]; data := [5; 6]%Z; resides := Host |} ].

(** * Properties *)

(** ** Outcomes *)

Lemma bind_Ok {A B} (m : result A) (f : A → result B) a :
  m = Ok a → (m ≫= f) = f a.
Proof. by intros ->. Qed.

Lemma foldM_app {A B} (f : A → B → result A) a l1 l2 :
  foldM f a (l1 ++ l2) = (foldM f a l1 ≫= λ a', foldM f a' l2).
Proof.
  revert a. induction l1 as [|b l1 IH]; intros a; simpl; [done|].
  destruct (f a b) as [a'| |]; simpl; [apply IH|done|done].
Qed.

Lemma mapR_Ok {A B} (f : A → result B) (g : A → B) l :
  (∀ x, x ∈ l → f x = Ok (g x)) → mapR f l = Ok (g <$> l).
Proof.
  induction l as [|x l IH]; intros Hf; simpl; [done|].
  rewrite (Hf x) by left. simpl.
  rewrite IH; [done|]. intros y Hy. apply Hf. by right.
Qed.

(** ** Row-major indexing *)

Lemma in_bounds_length idx s : in_bounds idx s = true → length idx = length s.
Proof.
  revert idx. induction s as [|d s IH]; intros [|i idx]; simpl; try done.
  intros [_ H]%andb_prop. f_equal. by apply IH.
Qed.

Lemma ravel_lt s idx : in_bounds idx s = true → ravel s idx < numel s.
Proof.
  revert idx. induction s as [|d s IH]; intros [|i idx]; simpl; try done; [lia|].
  intros [Hi H]%andb_prop. apply Nat.ltb_lt in Hi. apply IH in H. nia.
Qed.

Lemma unravel_ravel s idx : in_bounds idx s = true → unravel s (ravel s idx) = idx.
Proof.
  revert idx. induction s as [|d s IH]; intros [|i idx]; simpl; try done.
  intros [Hi H]%andb_prop.
  pose proof (ravel_lt _ _ H) as Hlt.
  assert (numel s ≠ 0) as Hn by lia.
  rewrite Nat.div_add_l by done. rewrite (Nat.div_small _ _ Hlt), Nat.add_0_r.
  rewrite Nat.add_comm, Nat.Div0.mod_add, (Nat.mod_small _ _ Hlt).
  f_equal. by apply IH.
Qed.

Lemma in_bounds_unravel s k : k < numel s → in_bounds (unravel s k) s = true.
Proof.
  revert k. induction s as [|d s IH]; intros k; simpl; [done|].
  intros Hk. assert (numel s ≠ 0) as Hn by (intros E; rewrite E in Hk; lia).
  apply andb_true_intro; split.
  - apply Nat.ltb_lt. apply Nat.Div0.div_lt_upper_bound. lia.
  - apply IH. by apply Nat.mod_upper_bound.
Qed.

Lemma ravel_unravel s k : k < numel s → ravel s (unravel s k) = k.
Proof.
  revert k. induction s as [|d s IH]; intros k; simpl; [lia|].
  intros Hk. assert (numel s ≠ 0) as Hn by (intros E; rewrite E in Hk; lia).
  rewrite IH by (by apply Nat.mod_upper_bound).
  pose proof (Nat.div_mod_eq k (numel s)). lia.
Qed.

(** ** dtypes *)

Lemma two_bits d : (2 ^ bits d = 2 * 2 ^ (bits d - 1))%Z.
Proof. by destruct d. Qed.

Lemma wrap_in_range d z : in_range d z → wrap d z = z.
Proof.
  unfold in_range, wrap. intros Hz. rewrite two_bits.
  rewrite Z.mod_small; lia.
Qed.

Lemma in_range_wrap d z : in_range d (wrap d z).
Proof.
  unfold in_range, wrap. rewrite two_bits.
  assert (0 < 2 ^ (bits d - 1))%Z by (by destruct d).
  pose proof (Z.mod_pos_bound (z + 2 ^ (bits d - 1)) (2 * 2 ^ (bits d - 1))).
  lia.
Qed.

Lemma in_range_mono d d' z : (bits d ≤ bits d')%Z → in_range d z → in_range d' z.
Proof.
  unfold in_range. intros Hb Hz.
  assert (2 ^ (bits d - 1) ≤ 2 ^ (bits d' - 1))%Z.
  { apply Z.pow_le_mono_r; [lia|]. lia. }
  lia.
Qed.

Lemma promote_bits_l d1 d2 : (bits d1 ≤ bits (promote d1 d2))%Z.
Proof. unfold promote. destruct (Z.ltb_spec (bits d1) (bits d2)); lia. Qed.

Lemma promote_bits_r d1 d2 : (bits d2 ≤ bits (promote d1 d2))%Z.
Proof. unfold promote. destruct (Z.ltb_spec (bits d1) (bits d2)); lia. Qed.

Lemma promote_idem d : promote d d = d.
Proof. unfold promote. by rewrite Z.ltb_irrefl. Qed.

Lemma foldl_promote_bits_init d ds : (bits d ≤ bits (foldl promote d ds))%Z.
Proof.
  revert d. induction ds as [|d' ds IH]; intros d; simpl; [lia|].
  etrans; [apply (promote_bits_l d d')|apply IH].
Qed.

Lemma foldl_promote_bits d ds d' :
  d' ∈ ds → (bits d' ≤ bits (foldl promote d ds))%Z.
Proof.
  revert d. induction ds as [|e ds IH]; intros d Hin; simpl.
  - by apply elem_of_nil in Hin.
  - apply elem_of_cons in Hin as [->|Hin].
    + etrans; [apply (promote_bits_r d e)|apply foldl_promote_bits_init].
    + by apply IH.
Qed.

Lemma foldl_promote_same d ds : Forall (λ d', d' = d) ds → foldl promote d ds = d.
Proof.
  induction 1 as [|d' ds -> _ IH]; simpl; [done|]. by rewrite promote_idem.
Qed.

(** ** Block assignment *)

Lemma fits_le s r : Forall2 le s r → fits s r = true.
Proof.
  unfold fits. induction 1 as [|x y s r Hxy _ IH]; simpl; [done|].
  rewrite IH, andb_true_r. apply orb_true_intro. left. by apply Nat.leb_le.
Qed.

Lemma getitem_in_bounds a idx :
  in_bounds idx (shape a) = true → getitem a idx = data a !! ravel (shape a) idx.
Proof. unfold getitem. by intros ->. Qed.

Lemma getitem_wf a idx :
  wf_ndarray a → in_bounds idx (shape a) = true →
  ∃ v, getitem a idx = Some v ∧ in_range (dtype a) v.
Proof.
  intros [Hlen Hall] Hin. rewrite getitem_in_bounds by done.
  destruct (lookup_lt_is_Some_2 (data a) (ravel (shape a) idx)) as [v Hv].
  { rewrite Hlen. by apply ravel_lt. }
  exists v. split; [done|].
  rewrite Forall_lookup in Hall. by eapply Hall.
Qed.

Lemma setitem_block_spec res i src n region :
  shape res = n :: region →
  i < n →
  length (shape src) = length region →
  Forall2 le (shape src) region →
  ∃ res', setitem_block res i src = Ok res' ∧
    dtype res' = dtype res ∧ shape res' = shape res ∧ resides res' = resides res ∧
    length (data res') = length (data res) ∧
    ∀ b idx, in_bounds (b :: idx) (shape res) = true →
      getitem res' (b :: idx) =
        if (b =? i) && in_bounds idx (shape src)
        then (λ _, wrap (dtype res) (default 0%Z (getitem src idx))) <$> getitem res (b :: idx)
        else getitem res (b :: idx).
Proof.
  intros Hshape Hi Hrank Hle. unfold setitem_block.
  destruct (shape res) as [|n' region'] eqn:Hs; simplify_eq.
  rewrite decide_False by lia. rewrite decide_False by lia.
  rewrite decide_False by lia. rewrite (fits_le _ _ Hle).
  cbn [negb]. eexists. split; [done|].
  cbn [dtype shape data resides]. rewrite length_imap.
  repeat split; try done.
  intros b idx Hin. unfold getitem. cbn [dtype shape data resides].
  rewrite Hs, Hin, list_lookup_imap, (unravel_ravel _ _ Hin).
  destruct ((b =? i) && in_bounds idx (shape src)) eqn:E.
  - apply andb_prop in E as [_ E]. by rewrite E.
  - by destruct (data res !! _).
Qed.

Lemma fold_setitem (l : list ndarray) : ∀ m res n region,
  shape res = n :: region →
  m + length l ≤ n →
  Forall (λ a, length (shape a) = length region ∧ Forall2 le (shape a) region) l →
  ∃ res', foldM write_example res (zip (seq m (length l)) (VArr <$> l)) = Ok res' ∧
    dtype res' = dtype res ∧ shape res' = shape res ∧ resides res' = resides res ∧
    length (data res') = length (data res) ∧
    ∀ b idx, in_bounds (b :: idx) (shape res) = true →
      getitem res' (b :: idx) =
        if decide (m ≤ b) then
          match l !! (b - m) with
          | Some a =>
              if in_bounds idx (shape a)
              then (λ _, wrap (dtype res) (default 0%Z (getitem a idx))) <$> getitem res (b :: idx)
              else getitem res (b :: idx)
          | None => getitem res (b :: idx)
          end
        else getitem res (b :: idx).
Proof.
  induction l as [|a l IH]; intros m res n region Hshape Hm Hall.
  - exists res. simpl. repeat split; try done.
    intros b idx _. by case_decide.
  - apply Forall_cons in Hall as [[Hrank Hle] Hall]. simpl in Hm.
    destruct (setitem_block_spec res m a n region) as
      (res1 & Hres1 & Hd1 & Hs1 & Hr1 & Hl1 & Hcell1); [done|lia|done|done|].
    destruct (IH (S m) res1 n region) as
      (res' & Hres' & Hd' & Hs' & Hr' & Hl' & Hcell'); [congruence|lia|done|].
    exists res'. split.
    { change (foldM write_example res (zip (seq m (length (a :: l))) (VArr <$> a :: l)))
        with (setitem_block res m a ≫=
                λ r, foldM write_example r (zip (seq (S m) (length l)) (VArr <$> l))).
      rewrite Hres1. exact Hres'. }
    repeat split; try congruence.
    intros b idx Hin. rewrite Hcell' by (by rewrite Hs1).
    rewrite !Hcell1 by done. rewrite Hd1.
    destruct (decide (S m ≤ b)) as [Hb|Hb].
    + rewrite decide_True by lia.
      replace (b - m) with (S (b - S m)) by lia.
      assert ((b =? m) = false) as -> by (apply Nat.eqb_neq; lia).
      done.
    + destruct (decide (m ≤ b)) as [Hb'|Hb'].
      * assert (b = m) as -> by lia. rewrite Nat.sub_diag, Nat.eqb_refl. done.
      * assert ((b =? m) = false) as -> by (apply Nat.eqb_neq; lia). done.
Qed.

(** ** The common shape *)

Lemma zip_with_max_idem (s : list nat) : zip_with Nat.max s s = s.
Proof. induction s as [|x s IH]; simpl; [done|]. by rewrite Nat.max_id, IH. Qed.

Lemma foldl_max_length (ss : list (list nat)) : ∀ shp,
  Forall (λ s, length s = length shp) ss →
  length (foldl (zip_with Nat.max) shp ss) = length shp.
Proof.
  induction ss as [|s ss IH]; intros shp Hall; simpl; [done|].
  apply Forall_cons in Hall as [Hs Hall].
  assert (length (zip_with Nat.max shp s) = length shp) as Hz.
  { rewrite length_zip_with. lia. }
  rewrite IH; [done|]. by rewrite Hz.
Qed.

Lemma foldl_max_lookup (ss : list (list nat)) : ∀ shp k x,
  Forall (λ s, length s = length shp) ss →
  shp !! k = Some x →
  foldl (zip_with Nat.max) shp ss !! k
  = Some (x `max` max_list ((λ s, default 0 (s !! k)) <$> ss)).
Proof.
  induction ss as [|s ss IH]; intros shp k x Hall Hx; simpl.
  - by rewrite Nat.max_0_r.
  - apply Forall_cons in Hall as [Hs Hall].
    destruct (lookup_lt_is_Some_2 s k) as [y Hy].
    { rewrite Hs. by eapply lookup_lt_Some. }
    assert (length (zip_with Nat.max shp s) = length shp) as Hz.
    { rewrite length_zip_with. lia. }
    rewrite (IH _ k (x `max` y)).
    + rewrite Hy. simpl. by rewrite Nat.max_assoc.
    + by rewrite Hz.
    + by rewrite lookup_zip_with, Hx, Hy.
Qed.

Lemma max_shape_fold (rest : list ndarray) : ∀ shp,
  Forall (λ a, length (shape a) = length shp) rest →
  foldM max_shape_step shp (VArr <$> rest)
  = Ok (foldl (zip_with Nat.max) shp (shape <$> rest)).
Proof.
  induction rest as [|a rest IH]; intros shp Hall; [done|].
  apply Forall_cons in Hall as [Ha Hall].
  rewrite !fmap_cons. cbn [foldM foldl].
  assert (max_shape_step shp (VArr a) = Ok (zip_with Nat.max shp (shape a))) as ->.
  { unfold max_shape_step. cbn [attr mbind result_bind].
    rewrite decide_True by done.
    case_bool_decide as Hne; [done|].
    by rewrite <- Hne, zip_with_max_idem. }
  cbn [mbind result_bind]. apply IH.
  eapply Forall_impl; [exact Hall|]. intros b Hb. simpl in Hb.
  rewrite length_zip_with. lia.
Qed.

Lemma common_shape_spec a0 rest :
  Forall (λ a, length (shape a) = length (shape a0)) rest →
  let shp := foldl (zip_with Nat.max) (shape a0) (shape <$> rest) in
  length shp = length (shape a0) ∧
  (∀ k, k < length (shape a0) → shp !! k = Some (max_extent (a0 :: rest) k)) ∧
  Forall (λ a, length (shape a) = length shp ∧ Forall2 le (shape a) shp) (a0 :: rest).
Proof.
  intros Hall shp.
  assert (Forall (λ s, length s = length (shape a0)) (shape <$> rest)) as Hall'.
  { by apply Forall_fmap. }
  assert (length shp = length (shape a0)) as Hlen by (by apply foldl_max_length).
  assert (∀ k, k < length (shape a0) → shp !! k = Some (max_extent (a0 :: rest) k)) as Hk.
  { intros k Hlt. destruct (lookup_lt_is_Some_2 (shape a0) k Hlt) as [x Hx].
    unfold shp. rewrite (foldl_max_lookup _ _ k x Hall' Hx).
    unfold max_extent. rewrite fmap_cons. cbn [max_list max_list_with].
    rewrite Hx. simpl. by rewrite <- list_fmap_compose. }
  split; [done|]. split; [done|].
  apply Forall_forall. intros a Ha.
  assert (length (shape a) = length (shape a0)) as Hrank.
  { apply elem_of_cons in Ha as [->|Ha]; [done|].
    rewrite Forall_forall in Hall. by apply Hall. }
  split; [congruence|].
  apply Forall2_same_length_lookup. split; [congruence|].
  intros k x y Hx Hy. rewrite Hk in Hy by (rewrite <- Hrank; by eapply lookup_lt_Some).
  simplify_eq. unfold max_extent.
  apply max_list_elem_of_le. apply list_elem_of_fmap.
  exists a. by rewrite Hx.
Qed.

(** ** Concatenation with padding *)

Lemma getitem_full s fill d dev res idx :
  full s fill d dev = Ok res → in_bounds idx s = true → getitem res idx = Some fill.
Proof.
  unfold full. case_decide; [|done]. intros [= <-] Hin.
  unfold getitem. cbn [shape data]. rewrite Hin.
  apply lookup_replicate_2. by apply ravel_lt.
Qed.

Lemma concat_with_padding_spec (a0 : ndarray) (rest : list ndarray) (padding : Z) :
  Forall (λ a, length (shape a) = length (shape a0)) rest →
  in_range (dtype a0) padding →
  ∃ res, _concat_arrays_with_padding (VArr <$> a0 :: rest) padding = Ok res ∧
    dtype res = dtype a0 ∧ resides res = resides a0 ∧
    shape res = length (a0 :: rest) :: foldl (zip_with Nat.max) (shape a0) (shape <$> rest) ∧
    length (data res) = numel (shape res) ∧
    ∀ i a idx, (a0 :: rest) !! i = Some a → in_bounds (i :: idx) (shape res) = true →
      getitem res (i :: idx)
      = Some (if in_bounds idx (shape a)
              then wrap (dtype a0) (default 0%Z (getitem a idx)) else padding).
Proof.
  intros Hrank Hpad.
  destruct (common_shape_spec a0 rest Hrank) as (Hlen & _ & Hfit).
  set (shp := foldl (zip_with Nat.max) (shape a0) (shape <$> rest)) in *.
  set (n := length (a0 :: rest)).
  destruct (full (n :: shp) padding (dtype a0) (resides a0)) as [res0| |] eqn:Hfull;
    [|unfold full in Hfull; by rewrite decide_True in Hfull..].
  assert (dtype res0 = dtype a0 ∧ shape res0 = n :: shp ∧ resides res0 = resides a0
          ∧ length (data res0) = numel (n :: shp)) as (Hd0 & Hs0 & Hr0 & Hl0).
  { unfold full in Hfull. rewrite decide_True in Hfull by done.
    injection Hfull as <-. cbn [dtype shape resides data].
    by rewrite length_replicate. }
  destruct (fold_setitem (a0 :: rest) 0 res0 n shp) as
    (res & Hres & Hd & Hs & Hr & Hl & Hcell); [done|unfold n; lia|done|].
  exists res. split.
  { unfold _concat_arrays_with_padding. rewrite fmap_cons.
    cbn [attr mbind result_bind]. rewrite (max_shape_fold rest _ Hrank).
    cbn [mbind result_bind]. rewrite <- fmap_cons, length_fmap.
    fold shp. fold n. rewrite Hfull. cbn [mbind result_bind]. exact Hres. }
  split; [congruence|]. split; [congruence|]. split; [congruence|].
  split; [congruence|].
  intros i a idx Ha Hin. rewrite Hs in Hin. rewrite Hcell by done.
  rewrite decide_True by lia. rewrite Nat.sub_0_r, Ha.
  rewrite Hs0 in Hin. rewrite (getitem_full _ _ _ _ _ _ Hfull Hin), Hd0.
  by destruct (in_bounds idx (shape a)).
Qed.

(** ** Concatenation without padding *)

Lemma mapR_subscript_None (l : list ndarray) :
  mapR subscript_None (VArr <$> l) = Ok (expand_dims <$> l).
Proof.
  induction l as [|a l IH]; [done|].
  rewrite !fmap_cons. cbn [mapR subscript_None mbind result_bind].
  by rewrite IH.
Qed.

Lemma concat_plain_spec (a0 : ndarray) (rest : list ndarray) :
  Forall (λ a, shape a = shape a0) rest →
  _concat_arrays (VArr <$> a0 :: rest) None = Ok (stacked (a0 :: rest) a0).
Proof.
  intros Hshape. unfold _concat_arrays. rewrite fmap_cons.
  cbn [is_ndarray mbind result_bind]. rewrite <- fmap_cons.
  rewrite mapR_subscript_None. cbn [mbind result_bind].
  unfold concatenate. rewrite fmap_cons. cbn [expand_dims shape].
  rewrite <- fmap_cons.
  assert (Forall (λ a, shape a = shape a0) (a0 :: rest)) as Hall by (by constructor).
  assert (forallb (λ a, bool_decide (tail (shape a) = shape a0 ∧ shape a ≠ []))
            (expand_dims <$> a0 :: rest) = true) as ->.
  { apply Is_true_eq_true, forallb_True, Forall_fmap.
    eapply Forall_impl; [exact Hall|]. intros a Ha. simpl in *.
    apply bool_decide_pack. by rewrite Ha. }
  unfold stacked, result_dtype. rewrite <- !list_fmap_compose.
  assert (sum_list (default 0 ∘ head ∘ shape ∘ expand_dims <$> a0 :: rest)
          = length (a0 :: rest)) as ->.
  { rewrite <- (Nat.mul_1_r (length (a0 :: rest))).
    apply (sum_list_fmap_same 1). by apply Forall_true. }
  done.
Qed.

Lemma concat_chunk {A} (ls : list (list A)) N : ∀ i l,
  Forall (λ l, length l = N) ls →
  ls !! i = Some l →
  take N (drop (i * N) (concat ls)) = l.
Proof.
  induction ls as [|l0 ls IH]; intros i l Hall Hl; [done|].
  apply Forall_cons in Hall as [Hl0 Hall]. destruct i as [|i]; simpl in *.
  - simplify_eq. by apply take_app_length'.
  - rewrite drop_app_add' by done. by apply IH.
Qed.

Lemma concat_lookup {A} (ls : list (list A)) N : ∀ k,
  N ≠ 0 →
  Forall (λ l, length l = N) ls →
  concat ls !! k = ls !! (k / N) ≫= λ l, l !! (k `mod` N).
Proof.
  induction ls as [|l0 ls IH]; intros k HN Hall; [done|].
  apply Forall_cons in Hall as [Hl0 Hall]. simpl.
  destruct (decide (k < N)) as [Hk|Hk].
  - rewrite lookup_app_l by lia.
    by rewrite Nat.div_small, Nat.mod_small.
  - rewrite lookup_app_r by lia. rewrite Hl0, IH by done.
    assert (k = (k - N) + 1 * N) as Hk' by lia.
    assert (k / N = S ((k - N) / N)) as ->.
    { rewrite Hk' at 1. rewrite Nat.div_add by done. lia. }
    assert (k `mod` N = (k - N) `mod` N) as ->.
    { rewrite Hk' at 1. by rewrite Nat.Div0.mod_add. }
    done.
Qed.

Lemma length_concat_same {A} (ls : list (list A)) N :
  Forall (λ l, length l = N) ls → length (concat ls) = length ls * N.
Proof. induction 1 as [|l ls Hl _ IH]; simpl; [done|]. rewrite length_app. lia. Qed.

Lemma wrap_data_id d a :
  wf_ndarray a → (bits (dtype a) ≤ bits d)%Z → wrap d <$> data a = data a.
Proof.
  intros [_ Hall] Hb. rewrite <- (list_fmap_id (data a)) at 2.
  apply list_fmap_ext. intros i z Hz. simpl.
  apply wrap_in_range. apply (in_range_mono (dtype a)); [done|].
  rewrite Forall_lookup in Hall. by eapply Hall.
Qed.

Lemma concat_arrays_padded a0 rest p :
  _concat_arrays (VArr <$> a0 :: rest) (Some p)
  = _concat_arrays_with_padding (VArr <$> a0 :: rest) p.
Proof. done. Qed.

Lemma in_bounds_le idx s r :
  Forall2 le s r → in_bounds idx s = true → in_bounds idx r = true.
Proof.
  intros Hle. revert idx. induction Hle as [|x y s r Hxy _ IH]; intros [|i idx]; try done.
  simpl. intros [Hi H]%andb_prop. apply Nat.ltb_lt in Hi.
  apply andb_true_intro. split; [apply Nat.ltb_lt; lia|by apply IH].
Qed.

Lemma head_cons_lookup {A} (l : list A) a : l !! 0 = Some a → ∃ rest, l = a :: rest.
Proof. destruct l as [|b l]; [done|]. intros [= ->]. by exists l. Qed.

(** C2, as stated, fails: the batch of an int8 array [[1]] and an int16
    array [[300, 2]] is non-empty, ragged and of one rank, and padded with
    0 its cell (1, 0) holds 44, the element 300 converted to the int8 of the
    first example. *)
Lemma padded_cells_counterexample :
  Forall wf_ndarray ragged_int8_int16 ∧
  Forall (λ a, length (shape a) = 1) ragged_int8_int16 ∧
  _concat_arrays (VArr <$> ragged_int8_int16) (Some 0%Z)
  = Ok {| dtype := int8; shape := [2; 2]; data := [1; 0; 44; 2]%Z; resides := Host |} ∧
  ¬ padded_cells_as_claimed ragged_int8_int16 0.
Proof.
  split; [|split; [|split]].
  - repeat constructor; unfold in_range; simpl; lia.
  - by repeat constructor.
  - by vm_compute.
  - intros (res & Hres & Hcell).
    assert (res = {| dtype := int8; shape := [2; 2]; data := [1; 0; 44; 2]%Z;
                     resides := Host |}) as ->.
    { vm_compute in Hres. by injection Hres. }
    specialize (Hcell 1 _ [0] eq_refl eq_refl). by vm_compute in Hcell.
Qed.

(** C2 (amended): for a non-empty batch of arrays of one rank and a
    padding value that the first example's dtype holds, concatenation
    returns an array of the first example's dtype whose leading dimension
    is the batch length and whose other dimensions are the elementwise
    maximum of the example shapes; every example's extent lies inside it;
    a cell inside an example's extent holds that example's element
    converted to the dtype of the first example (the element itself when
    the example has that dtype), and a cell outside holds the padding
    value. *)
Theorem concat_with_padding_cells (arrays : list ndarray) (a0 : ndarray) (padding : Z) :
  arrays !! 0 = Some a0 →
  Forall wf_ndarray arrays →
  Forall (λ a, length (shape a) = length (shape a0)) arrays →
  in_range (dtype a0) padding →
  ∃ res, _concat_arrays (VArr <$> arrays) (Some padding) = Ok res ∧
    dtype res = dtype a0 ∧
    length (shape res) = S (length (shape a0)) ∧
    shape res !! 0 = Some (length arrays) ∧
    (∀ k, k < length (shape a0) → shape res !! S k = Some (max_extent arrays k)) ∧
    ∀ i a idx, arrays !! i = Some a →
      (in_bounds idx (shape a) = true → in_bounds (i :: idx) (shape res) = true) ∧
      (in_bounds (i :: idx) (shape res) = true →
        if in_bounds idx (shape a)
        then ∃ v, getitem a idx = Some v ∧
               getitem res (i :: idx) = Some (wrap (dtype a0) v) ∧
               (dtype a = dtype a0 → getitem res (i :: idx) = Some v)
        else getitem res (i :: idx) = Some padding).
Proof.
  intros [rest ->]%head_cons_lookup Hwf Hrank Hpad.
  pose proof Hrank as [_ Hrank']%Forall_cons.
  destruct (concat_with_padding_spec a0 rest padding Hrank' Hpad)
    as (res & Hres & Hd & _ & Hs & _ & Hcell).
  destruct (common_shape_spec a0 rest Hrank') as (Hlen & Hext & Hfit).
  exists res. rewrite concat_arrays_padded. split; [done|]. split; [done|].
  split; [by rewrite Hs, <- Hlen|].
  split; [by rewrite Hs|]. split; [intros k Hk; rewrite Hs; by apply Hext|].
  intros i a idx Ha. split.
  - intros Hin. rewrite Hs. cbn [in_bounds]. apply andb_true_intro. split.
    + apply Nat.ltb_lt. by eapply lookup_lt_Some.
    + rewrite Forall_lookup in Hfit. destruct (Hfit i a Ha) as [_ Hle].
      by eapply in_bounds_le.
  - intros Hin. rewrite (Hcell i a idx Ha Hin).
    destruct (in_bounds idx (shape a)) eqn:Ein; [|done].
    rewrite Forall_lookup in Hwf.
    destruct (getitem_wf a idx (Hwf i a Ha) Ein) as (v & Hv & Hrange).
    exists v. rewrite Hv. cbn [default]. split; [done|]. split; [done|].
    intros Hda. rewrite <- Hda. by rewrite wrap_in_range.
Qed.

Lemma concat_with_padding_cells_witness :
  ∃ res, _concat_arrays (VArr <$> ragged_int64) (Some 0%Z) = Ok res ∧
    dtype res = int64 ∧
    length (shape res) = 2 ∧
    shape res !! 0 = Some 2 ∧
    (∀ k, k < 1 → shape res !! S k = Some (max_extent ragged_int64 k)) ∧
    ∀ i a idx, ragged_int64 !! i = Some a →
      (in_bounds idx (shape a) = true → in_bounds (i :: idx) (shape res) = true) ∧
      (in_bounds (i :: idx) (shape res) = true →
        if in_bounds idx (shape a)
        then ∃ v, getitem a idx = Some v ∧
               getitem res (i :: idx) = Some (wrap int64 v) ∧
               (dtype a = int64 → getitem res (i :: idx) = Some v)
        else getitem res (i :: idx) = Some 0%Z).
Proof.
  apply (concat_with_padding_cells ragged_int64
           {| dtype := int64; shape := [2]; data := [1%Z; 2%Z]; resides := Host |} 0%Z).
  - reflexivity.
  - repeat constructor; unfold in_range; simpl; lia.
  - by repeat constructor.
  - unfold in_range; simpl; lia.
Defined.

Lemma foldl_max_same (ss : list (list nat)) shp :
  Forall (λ s, s = shp) ss → foldl (zip_with Nat.max) shp ss = shp.
Proof.
  induction 1 as [|s ss -> _ IH]; simpl; [done|]. by rewrite zip_with_max_idem.
Qed.

(** C3: for a non-empty batch of arrays of one shape, concatenation with
    [padding=None] returns an array whose leading dimension is the batch
    length, whose remaining shape is the shape of the examples, and whose
    i-th leading slice has the shape and the elements of the i-th
    example. *)
Theorem concat_without_padding_stacks (arrays : list ndarray) (a0 : ndarray) :
  arrays !! 0 = Some a0 →
  Forall wf_ndarray arrays →
  Forall (λ a, shape a = shape a0) arrays →
  ∃ res, _concat_arrays (VArr <$> arrays) None = Ok res ∧
    shape res = length arrays :: shape a0 ∧
    ∀ i a, arrays !! i = Some a →
      ∃ slice, leading_slice res i = Some slice ∧
        shape slice = shape a ∧ data slice = data a.
Proof.
  intros [rest ->]%head_cons_lookup Hwf Hshape.
  pose proof Hshape as [_ Hshape']%Forall_cons.
  exists (stacked (a0 :: rest) a0). split; [by apply concat_plain_spec|].
  split; [done|]. intros i a Ha.
  unfold leading_slice. cbn [stacked shape dtype data resides].
  rewrite decide_True by (by eapply lookup_lt_Some).
  eexists. split; [done|]. cbn [shape data].
  rewrite Forall_lookup in Hshape. split; [by rewrite (Hshape i a Ha)|].
  rewrite Forall_lookup in Hwf. pose proof (Hwf i a Ha) as Hwfa.
  rewrite (concat_chunk _ (numel (shape a0)) i
             (wrap (result_dtype (a0 :: rest) a0) <$> data a)).
  - apply wrap_data_id; [done|]. apply foldl_promote_bits.
    apply list_elem_of_fmap. exists a. split; [done|].
    by eapply list_elem_of_lookup_2.
  - apply Forall_fmap, Forall_lookup. intros j b Hb. simpl.
    rewrite length_fmap. destruct (Hwf j b Hb) as [-> _].
    by rewrite (Hshape j b Hb).
  - by rewrite list_lookup_fmap, Ha.
Qed.

Lemma concat_without_padding_stacks_witness :
  ∃ res, _concat_arrays (VArr <$> square_int64) None = Ok res ∧
    shape res = [2; 2] ∧
    ∀ i a, square_int64 !! i = Some a →
      ∃ slice, leading_slice res i = Some slice ∧
        shape slice = shape a ∧ data slice = data a.
Proof.
  apply (concat_without_padding_stacks square_int64
           {| dtype := int64; shape := [2]; data := [1%Z; 2%Z]; resides := Host |}).
  - reflexivity.
  - repeat constructor; unfold in_range; simpl; lia.
  - by repeat constructor.
Defined.

(** C10, as stated, fails: two int8 arrays of shape (2,) share shape and
    dtype, and with the padding value 300, which int8 cannot hold,
    [xp.full] raises [OverflowError] before any example is copied, while
    the call with [padding=None] returns the stacked array. *)
Lemma padding_out_of_range_counterexample :
  Forall wf_ndarray square_int8 ∧
  Forall (λ a, shape a = [2] ∧ dtype a = int8) square_int8 ∧
  _concat_arrays (VArr <$> square_int8) (Some 300%Z) = Raise OverflowError ∧
  _concat_arrays (VArr <$> square_int8) None
  = Ok {| dtype := int8; shape := [2; 2]; data := [1; 2; 3; 4]%Z; resides := Host |} ∧
  ¬ padding_irrelevant_as_claimed square_int8 300.
Proof.
  split; [|split; [|split; [|split]]].
  - repeat constructor; unfold in_range; simpl; lia.
  - by repeat constructor.
  - by vm_compute.
  - by vm_compute.
  - unfold padding_irrelevant_as_claimed. by vm_compute.
Qed.

(** C10 (amended): for a non-empty batch of arrays of one shape and one
    dtype, concatenation with a padding value that the dtype holds
    returns the very array that concatenation with [padding=None]
    returns. *)
Theorem padding_irrelevant_when_not_ragged (arrays : list ndarray) (a0 : ndarray)
    (padding : Z) :
  arrays !! 0 = Some a0 →
  Forall wf_ndarray arrays →
  Forall (λ a, shape a = shape a0 ∧ dtype a = dtype a0) arrays →
  in_range (dtype a0) padding →
  ∃ res, _concat_arrays (VArr <$> arrays) None = Ok res ∧
    _concat_arrays (VArr <$> arrays) (Some padding) = Ok res.
Proof.
  intros [rest ->]%head_cons_lookup Hwf Hsame Hpad.
  assert (Forall (λ a, shape a = shape a0) (a0 :: rest)) as Hshape.
  { eapply Forall_impl; [exact Hsame|]. by intros a [? _]. }
  assert (Forall (λ a, dtype a = dtype a0) (a0 :: rest)) as Hdtype.
  { eapply Forall_impl; [exact Hsame|]. by intros a [_ ?]. }
  pose proof Hshape as [_ Hshape']%Forall_cons.
  assert (Forall (λ a, length (shape a) = length (shape a0)) rest) as Hrank.
  { eapply Forall_impl; [exact Hshape'|]. by intros a ->. }
  exists (stacked (a0 :: rest) a0). split; [by apply concat_plain_spec|].
  destruct (concat_with_padding_spec a0 rest padding Hrank Hpad)
    as (res & Hres & Hd & Hr & Hs & Hl & Hcell).
  rewrite concat_arrays_padded, Hres. f_equal.
  assert (result_dtype (a0 :: rest) a0 = dtype a0) as Hrd.
  { apply foldl_promote_same. by apply Forall_fmap. }
  rewrite foldl_max_same in Hs by (by apply Forall_fmap).
  set (N := numel (shape a0)).
  assert (Forall (λ l : list Z, length l = N)
            ((λ a, wrap (dtype a0) <$> data a) <$> a0 :: rest)) as Hlens.
  { apply Forall_fmap, Forall_lookup. intros j b Hb. simpl.
    rewrite length_fmap. rewrite Forall_lookup in Hwf, Hshape.
    destruct (Hwf j b Hb) as [-> _]. by rewrite (Hshape j b Hb). }
  destruct res as [d s dat r]. unfold stacked. rewrite Hrd.
  cbn [dtype shape data resides] in *. subst d s r. f_equal.
  apply list_eq. intros k.
  destruct (decide (k < length (a0 :: rest) * N)) as [Hk|Hk].
  - assert (N ≠ 0) as HN by (intros E; rewrite E in Hk; lia).
    rewrite (concat_lookup _ N k HN Hlens).
    assert (k / N < length (a0 :: rest)) as Hq.
    { apply Nat.Div0.div_lt_upper_bound. lia. }
    destruct (lookup_lt_is_Some_2 (a0 :: rest) (k / N) Hq) as [a Ha].
    rewrite list_lookup_fmap, Ha. cbn [fmap option_fmap option_map mbind option_bind].
    rewrite list_lookup_fmap.
    set (res := {| dtype := dtype a0; shape := length (a0 :: rest) :: shape a0;
                   data := dat; resides := resides a0 |}) in *.
    assert (in_bounds (unravel (shape res) k) (shape res) = true) as Hin.
    { apply in_bounds_unravel. exact Hk. }
    pose proof (getitem_in_bounds res _ Hin) as Hget.
    rewrite ravel_unravel in Hget by exact Hk.
    cbn [data res] in Hget. rewrite <- Hget.
    cbn [shape res unravel] in Hin |- *. fold N in Hin |- *.
    rewrite (Hcell _ a _ Ha Hin).
    rewrite Forall_lookup in Hshape. rewrite (Hshape _ a Ha).
    assert (k `mod` N < N) as Hm by (by apply Nat.mod_upper_bound).
    rewrite (in_bounds_unravel _ _ Hm).
    unfold getitem. rewrite (Hshape _ a Ha), (in_bounds_unravel _ _ Hm).
    rewrite (ravel_unravel _ _ Hm).
    rewrite Forall_lookup in Hwf. destruct (Hwf _ a Ha) as [Hla _].
    destruct (lookup_lt_is_Some_2 (data a) (k `mod` N)) as [v Hv].
    { rewrite Hla, (Hshape _ a Ha). exact Hm. }
    by rewrite Hv.
  - rewrite !lookup_ge_None_2; [done| |].
    + rewrite (length_concat_same _ N Hlens), length_fmap. lia.
    + rewrite Hl. cbn [numel]. fold N. lia.
Qed.

Lemma padding_irrelevant_when_not_ragged_witness :
  ∃ res, _concat_arrays (VArr <$> square_int64) None = Ok res ∧
    _concat_arrays (VArr <$> square_int64) (Some 7%Z) = Ok res.
Proof.
  apply (padding_irrelevant_when_not_ragged square_int64
           {| dtype := int64; shape := [2]; data := [1%Z; 2%Z]; resides := Host |} 7%Z).
  - reflexivity.
  - repeat constructor; unfold in_range; simpl; lia.
  - by repeat constructor.
  - unfold in_range; simpl; lia.
Defined.

(** X1: Concatenation without padding of arrays whose shapes differ raises
    numpy's shape mismatch. *)
Theorem concat_without_padding_mismatch (a0 : ndarray) (rest : list ndarray) :
  Exists (λ a, shape a ≠ shape a0) rest →
  _concat_arrays (VArr <$> a0 :: rest) None = Raise ShapeMismatch.
Proof.
  intros Hex. unfold _concat_arrays. rewrite fmap_cons.
  cbn [is_ndarray mbind result_bind]. rewrite <- fmap_cons.
  rewrite mapR_subscript_None. cbn [mbind result_bind].
  unfold concatenate. rewrite fmap_cons. cbn [expand_dims shape].
  rewrite <- fmap_cons.
  destruct (forallb _ (expand_dims <$> a0 :: rest)) eqn:Hall; [|done].
  rewrite forallb_forall in Hall.
  apply Exists_exists in Hex as (a & Ha & Hne).
  assert (In (expand_dims a) (expand_dims <$> a0 :: rest)) as Hin.
  { apply list_elem_of_In, list_elem_of_fmap. exists a. split; [done|]. by right. }
  apply Hall in Hin. by apply bool_decide_eq_true in Hin as [Hin _].
Qed.

Lemma concat_without_padding_mismatch_witness :
  _concat_arrays (VArr <$> ragged_int64) None = Raise ShapeMismatch.
Proof.
  apply (concat_without_padding_mismatch
           {| dtype := int64; shape := [2]; data := [1%Z; 2%Z]; resides := Host |}
           [ {| dtype := int64; shape := [3]; data := [3%Z; 4%Z; 5%Z]; resides := Host |} ]).
  apply Exists_cons_hd. discriminate.
Defined.

(** ** [concat_examples] on mappings *)

Lemma dict_lookup_setitem_eq {V} (d : pydict V) key v :
  dict_lookup (dict_setitem d key v) key = Some v.
Proof.
  induction d as [|[k w] d IH]; simpl.
  - by rewrite decide_True.
  - destruct (decide (k = key)) as [->|Hne]; simpl.
    + by rewrite decide_True.
    + by rewrite decide_False.
Qed.

Lemma dict_lookup_setitem_ne {V} (d : pydict V) key key' v :
  key ≠ key' → dict_lookup (dict_setitem d key v) key' = dict_lookup d key'.
Proof.
  intros Hne. induction d as [|[k w] d IH]; simpl.
  - by rewrite decide_False.
  - destruct (decide (k = key)) as [->|Hk]; simpl.
    + by rewrite !decide_False.
    + destruct (decide (k = key')); [done|]. exact IH.
Qed.

Lemma keys_setitem_fresh {V} (d : pydict V) key v :
  key ∉ keys d → keys (dict_setitem d key v) = keys d ++ [key].
Proof.
  unfold keys. induction d as [|[k w] d IH]; intros Hfresh; simpl; [done|].
  rewrite fmap_cons in Hfresh. cbn [fst] in Hfresh.
  apply not_elem_of_cons in Hfresh as [Hne Hfresh].
  rewrite decide_False by done. rewrite fmap_cons. cbn [fst]. by rewrite IH.
Qed.

Lemma concat_keys_spec examples device padding first_elem (ks : list string) :
  ∀ acc res,
  NoDup ks →
  (∀ k, k ∈ ks → k ∉ keys acc) →
  foldM (concat_key examples device padding first_elem) acc ks = Ok res →
  keys res = keys acc ++ ks ∧
  (∀ k, k ∉ ks → dict_lookup res k = dict_lookup acc k) ∧
  ∀ k, k ∈ ks →
    ∃ column p a,
      mapR (λ example, dict_getitem example (KStr k)) examples = Ok column ∧
      dict_padding padding first_elem (KStr k) = Ok p ∧
      _concat_arrays column p = Ok a ∧
      dict_lookup res k = Some (to_device device a).
Proof.
  induction ks as [|key ks IH]; intros acc res Hnodup Hfresh Hfold.
  - injection Hfold as <-. rewrite app_nil_r. split; [done|]. split; [done|].
    intros k Hk. by apply elem_of_nil in Hk.
  - apply NoDup_cons in Hnodup as [Hkey Hnodup]. cbn [foldM] in Hfold.
    destruct (concat_key examples device padding first_elem acc key)
      as [acc'| |] eqn:Hstep; [|done..].
    cbn [mbind result_bind] in Hfold.
    unfold concat_key in Hstep.
    destruct (mapR _ examples) as [column| |] eqn:Hcol; [|done..].
    cbn [mbind result_bind] in Hstep.
    destruct (dict_padding padding first_elem (KStr key)) as [p| |] eqn:Hp; [|done..].
    cbn [mbind result_bind] in Hstep.
    destruct (_concat_arrays column p) as [a| |] eqn:Ha; [|done..].
    cbn [mbind result_bind] in Hstep. injection Hstep as <-.
    assert (key ∉ keys acc) as Hkacc by (apply Hfresh; by left).
    destruct (IH (dict_setitem acc key (to_device device a)) res Hnodup)
      as (Hkeys & Hold & Hnew); [|exact Hfold|].
    { intros k Hk. rewrite keys_setitem_fresh by done.
      intros [Hin|Hin%list_elem_of_singleton]%elem_of_app.
      - by apply (Hfresh k); [right|].
      - by subst k. }
    rewrite keys_setitem_fresh in Hkeys by done.
    split; [by rewrite Hkeys, <- app_assoc|]. split.
    + intros k Hk. apply not_elem_of_cons in Hk as [Hne Hk].
      rewrite (Hold k Hk). by apply dict_lookup_setitem_ne.
    + intros k [->|Hk]%elem_of_cons.
      * exists column, p, a. repeat split; try done.
        rewrite (Hold key Hkey). apply dict_lookup_setitem_eq.
      * by apply Hnew.
Qed.

(** X3: On a batch of mappings, [concat_examples] returns a mapping over
    the keys of the first example, in their order, which sends every key
    to the concatenation of that key's values across the examples, with
    that key's padding, placed on the requested device. *)
Theorem concat_examples_mapping (examples : list (pydict value))
    (first_elem : pydict value) (device : option Z) (padding : padding_t)
    (res : batched) :
  examples !! 0 = Some first_elem →
  NoDup (keys first_elem) →
  concat_examples (DictBatch examples) device padding = Ok res →
  ∃ d, res = BDict d ∧ keys d = keys first_elem ∧
    ∀ key, key ∈ keys first_elem →
      ∃ column p a,
        mapR (λ example, dict_getitem example (KStr key)) examples = Ok column ∧
        dict_padding padding first_elem (KStr key) = Ok p ∧
        _concat_arrays column p = Ok a ∧
        dict_lookup d key = Some (to_device device a).
Proof.
  intros Hfirst Hnodup Hcall. unfold concat_examples in Hcall.
  rewrite decide_False in Hcall.
  2: { cbn [len]. apply lookup_lt_Some in Hfirst. lia. }
  unfold seq_getitem in Hcall. rewrite Hfirst in Hcall.
  cbn [mbind result_bind] in Hcall.
  destruct (foldM (concat_key examples device padding first_elem) [] (keys first_elem))
    as [d| |] eqn:Hfold; [|done..].
  cbn [mbind result_bind] in Hcall. injection Hcall as <-.
  destruct (concat_keys_spec _ _ _ _ _ [] _ Hnodup (λ k _, not_elem_of_nil k) Hfold)
    as (Hkeys & _ & Hnew).
  exists d. split; [done|]. split; [exact Hkeys|]. exact Hnew.
Qed.

Lemma concat_examples_mapping_witness :
  ∃ d, BDict
         [("x"%string, {| dtype := int64; shape := [2; 3];
                          data := [1; 2; 0; 3; 4; 5]%Z; resides := Host |});
          ("y"%string, {| dtype := int64; shape := [2];
                          data := [0; 1]%Z; resides := Host |})] = BDict d ∧
    keys d = keys (scenario_first int64) ∧
    ∀ key, key ∈ keys (scenario_first int64) →
      ∃ column p a,
        mapR (λ example, dict_getitem example (KStr key)) (scenario_examples int64)
        = Ok column ∧
        dict_padding scenario_padding (scenario_first int64) (KStr key) = Ok p ∧
        _concat_arrays column p = Ok a ∧
        dict_lookup d key = Some (to_device None a).
Proof.
  apply (concat_examples_mapping (scenario_examples int64) (scenario_first int64)
           None scenario_padding).
  - reflexivity.
  - apply NoDup_cons. split; [|apply NoDup_singleton].
    intros H%list_elem_of_singleton. discriminate.
  - by vm_compute.
Defined.

(** ** The example scenarios *)

(** On the batch [[([1,2],), ([1,2],)]] of one-element tuples holding
    integer arrays, without padding and without device, [concat_examples]
    returns the one-element tuple [([[1,2],[1,2]],)]. *)
Theorem concat_examples_tuple_scenario (d : numpy_dtype) :
  concat_examples
    (TupleBatch
       [ [VArr {| dtype := d; shape := [2]; data := [1; 2]%Z; resides := Host |}];
         [VArr {| dtype := d; shape := [2]; data := [1; 2]%Z; resides := Host |}] ])
    None (PadValue None)
  = Ok (BTuple [ {| dtype := d; shape := [2; 2]; data := [1; 2; 1; 2]%Z;
                    resides := Host |} ]).
Proof. destruct d; by vm_compute. Qed.

(** C8: on the batch [{"x": [1,2], "y": 0}, {"x": [3,4,5], "y": 1}],
    whose "x" entries are integer arrays (of any dtype) and whose "y"
    entries are built-in integers, with padding {"x": 0, "y": None} and no
    device, [concat_examples] returns {"x": [[1,2,0],[3,4,5]], "y": [0,1]}:
    "x" padded with 0 to the extent (2, 3), "y" coerced into an array of
    length 2. *)
Theorem concat_examples_scenario (d : numpy_dtype) :
  concat_examples (scenario_batch d) None scenario_padding
  = Ok (BDict
          [("x"%string, {| dtype := d; shape := [2; 3];
                           data := [1; 2; 0; 3; 4; 5]%Z; resides := Host |});
           ("y"%string, {| dtype := int64; shape := [2];
                           data := [0; 1]%Z; resides := Host |})]).
Proof. destruct d; by vm_compute. Qed.

(** ** Device placement *)

(** C6: [to_device(None, x)] is [x] itself; with a negative device it is
    the copy of [x] in host memory, and with a device [d >= 0] the copy of
    [x] on accelerator [d]; the copies keep dtype, shape and contents. *)
Theorem to_device_placement (x : ndarray) :
  to_device None x = x ∧
  (∀ d, (d < 0)%Z →
     to_device (Some d) x = cuda.to_cpu x ∧
     resides (to_device (Some d) x) = Host ∧
     dtype (to_device (Some d) x) = dtype x ∧
     shape (to_device (Some d) x) = shape x ∧
     data (to_device (Some d) x) = data x) ∧
  (∀ d, (0 ≤ d)%Z →
     to_device (Some d) x = cuda.to_gpu x d ∧
     resides (to_device (Some d) x) = Gpu d ∧
     dtype (to_device (Some d) x) = dtype x ∧
     shape (to_device (Some d) x) = shape x ∧
     data (to_device (Some d) x) = data x).
Proof.
  split; [done|]. split; intros d Hd; unfold to_device.
  - destruct (Z.ltb_spec d 0); [done|lia].
  - destruct (Z.ltb_spec d 0); [lia|done].
Qed.

Lemma to_device_placement_witness :
  to_device None pair_of_int64 = pair_of_int64 ∧
  resides (to_device (Some (-1)%Z) pair_of_int64) = Host ∧
  resides (to_device (Some 0%Z) pair_of_int64) = Gpu 0.
Proof.
  destruct (to_device_placement pair_of_int64) as (Hnone & Hhost & Hgpu).
  split; [exact Hnone|]. split.
  - destruct (Hhost (-1)%Z) as (_ & H & _); [lia|exact H].
  - destruct (Hgpu 0%Z) as (_ & H & _); [lia|exact H].
Defined.

(** ** Empty batches *)

(** C4: on a batch of zero examples [concat_examples] and
    [ConcatWithAsyncTransfer.__call__] raise [ValueError('batch is
    empty')], whatever the device and the padding; the converter object
    and the runtime are left as they were. *)
Theorem empty_batch_raises (batch : batch_t) (device : option Z) (padding : padding_t)
    (st : ConcatWithAsyncTransfer.t * runtime) :
  len batch = 0 →
  concat_examples batch device padding = Raise (ValueError "batch is empty") ∧
  ConcatWithAsyncTransfer.__call__ batch device padding st
  = (Raise (ValueError "batch is empty"), st).
Proof.
  intros Hlen. unfold concat_examples, ConcatWithAsyncTransfer.__call__.
  by rewrite !decide_True by done.
Qed.

Lemma empty_batch_raises_witness :
  concat_examples (DictBatch []) (Some 0%Z) (PadValue (Some 1%Z))
  = Raise (ValueError "batch is empty") ∧
  ConcatWithAsyncTransfer.__call__ (DictBatch []) (Some 0%Z) (PadValue (Some 1%Z))
    (ConcatWithAsyncTransfer.__init__ None, {| fresh := 0; log := [] |})
  = (Raise (ValueError "batch is empty"),
     (ConcatWithAsyncTransfer.__init__ None, {| fresh := 0; log := [] |})).
Proof.
  apply (empty_batch_raises (DictBatch []) (Some 0%Z) (PadValue (Some 1%Z))).
  reflexivity.
Defined.

(** ** The orchestrator on mappings *)

Lemma stateR_bind_Ok {S A B} (m : stateR S A) (f : A → stateR S B) s a s' :
  m s = (Ok a, s') → (m ≫= f) s = f a s'.
Proof. unfold mbind, stateR_bind. by intros ->. Qed.

Lemma create_stream_Ok device st :
  ConcatWithAsyncTransfer.create_stream device st
  = (Ok (), after_create_stream device st).
Proof.
  unfold after_create_stream, ConcatWithAsyncTransfer.create_stream.
  destruct st as [self rt], device as [d|], (ConcatWithAsyncTransfer.stream self);
    try destruct (0 <=? d)%Z; done.
Qed.

Lemma create_stream_conveyer device st :
  ConcatWithAsyncTransfer.conveyer (after_create_stream device st).1
  = ConcatWithAsyncTransfer.conveyer st.1.
Proof.
  unfold after_create_stream, ConcatWithAsyncTransfer.create_stream.
  destruct st as [self rt], device as [d|], (ConcatWithAsyncTransfer.stream self);
    try destruct (0 <=? d)%Z; done.
Qed.

(** C1 (the code departs from it): on every non-empty batch of mappings
    whose first example has a key, [ConcatWithAsyncTransfer.__call__]
    raises [UnboundLocalError] for the local [i] at the first round of
    its loop over the keys, before any array is concatenated or sent
    through a channel. *)
Theorem async_mapping_batch_raises (first : pydict value) (rest : list (pydict value))
    (device : option Z) (padding : padding_t) (st : ConcatWithAsyncTransfer.t * runtime) :
  first ≠ [] →
  ConcatWithAsyncTransfer.__call__ (DictBatch (first :: rest)) device padding st
  = (Raise (UnboundLocalError "i"), after_create_stream device st) ∧
  ConcatWithAsyncTransfer.conveyer (after_create_stream device st).1
  = ConcatWithAsyncTransfer.conveyer st.1.
Proof.
  intros Hne. destruct first as [|[key v] first]; [done|]. split.
  - unfold ConcatWithAsyncTransfer.__call__. rewrite decide_False by done.
    erewrite stateR_bind_Ok; [|apply create_stream_Ok]. done.
  - apply create_stream_conveyer.
Qed.

(** C1 at the scenario of the specification: [concat_examples] returns
    the mapping of concatenated arrays, the asynchronous converter
    raises. *)
Lemma async_mapping_batch_raises_witness :
  ConcatWithAsyncTransfer.__call__ (scenario_batch int64) None scenario_padding
    (ConcatWithAsyncTransfer.__init__ None, {| fresh := 0; log := [] |})
  = (Raise (UnboundLocalError "i"),
     after_create_stream None
       (ConcatWithAsyncTransfer.__init__ None, {| fresh := 0; log := [] |})) ∧
  ConcatWithAsyncTransfer.conveyer
    (after_create_stream None
       (ConcatWithAsyncTransfer.__init__ None, {| fresh := 0; log := [] |})).1
  = (∅ : gmap nat Conveyer.t).
Proof.
  apply (async_mapping_batch_raises _ _ None scenario_padding
           (ConcatWithAsyncTransfer.__init__ None, {| fresh := 0; log := [] |})).
  discriminate.
Defined.

(** ** The transfer channel: synchronous path *)

(** C7: with no device, a negative device, or no stream, the channel
    returns [to_device(self.device, array)] and leaves its state, the
    buffer pairs included, and the runtime untouched. *)
Theorem conveyer_synchronous_path (self : Conveyer.t) (array : ndarray) (rt : runtime) :
  Conveyer.device self = None
  ∨ (∃ d, Conveyer.device self = Some d ∧ (d < 0)%Z)
  ∨ Conveyer.stream self = None →
  Conveyer.__call__ array (self, rt)
  = (Ok (to_device (Conveyer.device self) array), (self, rt)).
Proof.
  intros H. unfold Conveyer.__call__.
  assert (Conveyer.asynchronous self = None) as ->; [|done].
  unfold Conveyer.asynchronous.
  destruct H as [->|[(d & -> & Hd)| ->]]; [done| |].
  - destruct (Conveyer.stream self); [|done].
    destruct (Z.ltb_spec d 0); [done|lia].
  - by destruct (Conveyer.device self).
Qed.

Lemma conveyer_synchronous_path_witness :
  Conveyer.__call__
    {| dtype := int64; shape := [2]; data := [1; 2]%Z; resides := Host |}
    (Conveyer.__init__ (Some (-1)%Z) (Some 7), {| fresh := 0; log := [] |})
  = (Ok (to_device (Some (-1)%Z)
           {| dtype := int64; shape := [2]; data := [1; 2]%Z; resides := Host |}),
     (Conveyer.__init__ (Some (-1)%Z) (Some 7), {| fresh := 0; log := [] |})).
Proof.
  apply (conveyer_synchronous_path (Conveyer.__init__ (Some (-1)%Z) (Some 7))).
  right. left. exists (-1)%Z. split; [reflexivity|lia].
Defined.

(** ** The transfer channel: asynchronous path *)

Lemma strip_ones_same s : strip_ones (length s) s = s.
Proof. destruct s as [|[|[|x]] s]; try done. simpl. by rewrite Nat.ltb_irrefl. Qed.

Lemma broadcast_shape_refl s : broadcast_shape s s = Some s.
Proof.
  unfold broadcast_shape. rewrite strip_ones_same, Nat.leb_refl, Nat.sub_diag.
  simpl. assert (forallb (λ '(s0, d), (s0 =? d) || (s0 =? 1)) (zip s s) = true) as ->; [|done].
  induction s as [|x s IH]; simpl; [done|]. by rewrite Nat.eqb_refl, IH.
Qed.

Lemma assign_shape dst src r :
  assign dst src = Ok r →
  dtype r = dtype dst ∧ shape r = shape dst ∧ resides r = resides dst ∧
  is_Some (broadcast_shape (shape src) (shape dst)).
Proof.
  unfold assign. destruct (broadcast_shape _ _); [|done]. by intros [= <-].
Qed.

Lemma assign_Ok dst src :
  is_Some (broadcast_shape (shape src) (shape dst)) → ∃ r, assign dst src = Ok r.
Proof. unfold assign. intros [s ->]. by eexists. Qed.

Lemma call_alloc self array rt d s pair rest :
  Conveyer.asynchronous self = Some (d, s) →
  Conveyer.array_set self = pair :: rest →
  reusable pair array = false →
  ∃ pin cp,
    Conveyer.__call__ array (self, rt)
    = (Ok (buf_array cp),
       (Conveyer.with_array_set self (rest ++ [(Some pin, Some cp)]),
        {| fresh := S (S (fresh rt));
           log := log rt ++ [DeviceSynchronize;
                             AllocPinned (fresh rt) (nbytes array);
                             AllocDevice (S (fresh rt)) d (nbytes array);
                             HostCopy (fresh rt);
                             MemcpyAsync (fresh rt) (S (fresh rt)) s] |})) ∧
    buf_id pin = fresh rt ∧ buf_id cp = S (fresh rt) ∧
    shape (buf_array pin) = shape array ∧ dtype (buf_array pin) = dtype array ∧
    shape (buf_array cp) = shape array ∧ dtype (buf_array cp) = dtype array ∧
    resides (buf_array pin) = Host ∧ resides (buf_array cp) = Gpu d.
Proof.
  intros Hasync Hset Hreuse.
  destruct (assign_Ok (Conveyer.empty_like array Host) array) as [filled Hfilled].
  { cbn [Conveyer.empty_like shape]. rewrite broadcast_shape_refl. by eexists. }
  destruct (assign_shape _ _ _ Hfilled) as (Hd & Hs & Hr & _).
  cbn [Conveyer.empty_like dtype shape resides] in Hd, Hs, Hr.
  eexists {| buf_id := fresh rt; buf_array := filled |},
          {| buf_id := S (fresh rt); buf_array := _ |}.
  split.
  - unfold Conveyer.__call__. rewrite Hasync, Hset. destruct pair as [pin cp].
    assert (match pin with
            | Some pin => if decide (nbytes (buf_array pin) ≠ nbytes array)
                          then None else Some pin
            | None => None
            end = None) as ->.
    { unfold reusable in Hreuse. cbn [fst] in Hreuse. destruct pin as [pin|]; [|done].
      apply bool_decide_eq_false in Hreuse. by rewrite decide_True. }
    cbn [buf_id buf_array]. rewrite Hfilled.
    unfold emit, Conveyer.with_array_set.
    cbn [Conveyer.device Conveyer.stream Conveyer.array_set fresh log buf_id buf_array].
    rewrite <- !app_assoc. reflexivity.
  - cbn [buf_id buf_array dtype shape resides Conveyer.empty_like]. done.
Qed.

Lemma call_reuse self array rt d s pin cp rest :
  Conveyer.asynchronous self = Some (d, s) →
  Conveyer.array_set self = (Some pin, cp) :: rest →
  nbytes (buf_array pin) = nbytes array →
  Conveyer.__call__ array (self, rt)
  = match assign (buf_array pin) array with
    | Ok filled =>
        match cp with
        | Some c =>
            let cp_array :=
              {| buf_id := buf_id c;
                 buf_array := {| dtype := dtype (buf_array c);
                                 shape := shape (buf_array c);
                                 data := data filled;
                                 resides := resides (buf_array c) |} |} in
            (Ok (buf_array cp_array),
             (Conveyer.with_array_set self
                (rest ++ [(Some {| buf_id := buf_id pin; buf_array := filled |},
                           Some cp_array)]),
              {| fresh := fresh rt;
                 log := log rt ++ [HostCopy (buf_id pin);
                                   MemcpyAsync (buf_id pin) (buf_id c) s] |}))
        | None =>
            (Raise AttributeError,
             (Conveyer.with_array_set self rest,
              {| fresh := fresh rt; log := log rt ++ [HostCopy (buf_id pin)] |}))
        end
    | Raise e => (Raise e, (Conveyer.with_array_set self rest, rt))
    | Unmodelled => (Unmodelled, (Conveyer.with_array_set self rest, rt))
    end.
Proof.
  intros Hasync Hset Hnb. unfold Conveyer.__call__. rewrite Hasync, Hset.
  rewrite decide_False by (intros H; by apply H).
  destruct (assign (buf_array pin) array) as [filled| |]; [|done..].
  destruct cp as [c|]; [|done].
  unfold emit, Conveyer.with_array_set.
  cbn [Conveyer.device Conveyer.stream Conveyer.array_set fresh log buf_id buf_array].
  rewrite <- !app_assoc. reflexivity.
Qed.

Lemma nbytes_same a b : shape a = shape b → dtype a = dtype b → nbytes a = nbytes b.
Proof. unfold nbytes. by intros -> ->. Qed.

Lemma reusable_true pair array :
  reusable pair array = true →
  ∃ pin, pair.1 = Some pin ∧ nbytes (buf_array pin) = nbytes array.
Proof.
  unfold reusable. destruct (pair.1) as [pin|]; [|done].
  intros H%bool_decide_eq_true. by exists pin.
Qed.

(** A call of the asynchronous path that returns: the pair it appended. *)
Lemma call_Ok_inv self array rt d s pair rest r self' rt' :
  Conveyer.asynchronous self = Some (d, s) →
  Conveyer.array_set self = pair :: rest →
  Conveyer.__call__ array (self, rt) = (Ok r, (self', rt')) →
  ∃ pin cp,
    self' = Conveyer.with_array_set self (rest ++ [(Some pin, Some cp)]) ∧
    r = buf_array cp ∧
    nbytes (buf_array pin) = nbytes array ∧
    is_Some (broadcast_shape (shape array) (shape (buf_array pin))) ∧
    if reusable pair array
    then pair_ids (Some pin, Some cp) = pair_ids pair ∧
         rt' = {| fresh := fresh rt;
                  log := log rt ++ [HostCopy (buf_id pin);
                                    MemcpyAsync (buf_id pin) (buf_id cp) s] |}
    else buf_id pin = fresh rt ∧ buf_id cp = S (fresh rt) ∧
         rt' = {| fresh := S (S (fresh rt));
                  log := log rt ++ [DeviceSynchronize;
                                    AllocPinned (fresh rt) (nbytes array);
                                    AllocDevice (S (fresh rt)) d (nbytes array);
                                    HostCopy (fresh rt);
                                    MemcpyAsync (fresh rt) (S (fresh rt)) s] |}.
Proof.
  intros Hasync Hset Hcall. destruct (reusable pair array) eqn:Hreuse.
  - destruct (reusable_true _ _ Hreuse) as (pin & Hpin & Hnb).
    destruct pair as [pin' cp]. cbn [fst] in Hpin. subst pin'.
    rewrite (call_reuse self array rt d s pin cp rest Hasync Hset Hnb) in Hcall.
    destruct (assign (buf_array pin) array) as [filled| |] eqn:Hfilled; [|done..].
    destruct cp as [c|]; [|done].
    destruct (assign_shape _ _ _ Hfilled) as (Hd & Hs & _ & Hb).
    injection Hcall as <- <- <-.
    eexists _, _. split; [done|]. split; [done|]. cbn [buf_array buf_id].
    split; [by rewrite <- Hnb; apply nbytes_same|].
    split; [by rewrite Hs|]. done.
  - destruct (call_alloc self array rt d s pair rest Hasync Hset Hreuse)
      as (pin & cp & Hcall' & Hip & Hic & Hsp & Hdp & _).
    rewrite Hcall' in Hcall. injection Hcall as <- <- <-.
    exists pin, cp. split; [done|]. split; [done|].
    split; [by apply nbytes_same|].
    split; [rewrite Hsp, broadcast_shape_refl; by eexists|]. done.
Qed.




Lemma call_preserves_length self array rt r self' rt' :
  Conveyer.__call__ array (self, rt) = (Ok r, (self', rt')) →
  length (Conveyer.array_set self') = length (Conveyer.array_set self).
Proof.
  intros Hcall. destruct (Conveyer.asynchronous self) as [[d s]|] eqn:Hasync.
  - destruct (Conveyer.array_set self) as [|pair rest] eqn:Hset.
    + unfold Conveyer.__call__ in Hcall. by rewrite Hasync, Hset in Hcall.
    + destruct (call_Ok_inv _ _ _ _ _ _ _ _ _ _ Hasync Hset Hcall) as (pin & cp & -> & _).
      cbn [Conveyer.with_array_set Conveyer.array_set].
      rewrite length_app. simpl. lia.
  - unfold Conveyer.__call__ in Hcall. rewrite Hasync in Hcall. by injection Hcall as _ <- _.
Qed.

Lemma calls_preserve_length arrays : ∀ self rt rs self' rt',
  calls arrays (self, rt) = (Ok rs, (self', rt')) →
  length (Conveyer.array_set self') = length (Conveyer.array_set self) ∧
  length rs = length arrays.
Proof.
  induction arrays as [|a arrays IH]; intros self rt rs self' rt' Hcalls.
  - by injection Hcalls as <- <- <-.
  - cbn [calls] in Hcalls. unfold mbind, stateR_bind in Hcalls.
    destruct (Conveyer.__call__ a (self, rt)) as [[r| |] [self1 rt1]] eqn:Hcall; [|done..].
    fold (@mbind _ (@stateR_bind (Conveyer.t * runtime))) in Hcalls.
    destruct (calls arrays (self1, rt1)) as [[rs1| |] [self2 rt2]] eqn:Hrest; [|done..].
    injection Hcalls as <- <- <-.
    destruct (IH _ _ _ _ _ Hrest) as [-> Hrs]. simpl. rewrite Hrs.
    by rewrite (call_preserves_length _ _ _ _ _ _ Hcall).
Qed.

(** C9, as stated, fails: the third call pops the pair of the first,
    keeps it because 48 bytes are 48 bytes, and [pin_array[...] = array]
    raises on the shapes (3, 2) and (2, 3) before any pair is appended:
    one pair is left. *)
Lemma rotation_counterexample :
  Conveyer.asynchronous fresh_channel = Some (0%Z, 7) ∧
  nbytes two_by_three = nbytes three_by_two ∧
  (calls [two_by_three; two_by_three; three_by_two]
     (fresh_channel, {| fresh := 0; log := [] |})).1 = Raise ShapeMismatch ∧
  length (Conveyer.array_set
            (calls [two_by_three; two_by_three; three_by_two]
               (fresh_channel, {| fresh := 0; log := [] |})).2.1) = 1 ∧
  ¬ always_two_as_claimed fresh_channel {| fresh := 0; log := [] |}
      [two_by_three; two_by_three; three_by_two].
Proof.
  split; [done|]. split; [done|]. split; [by vm_compute|]. split; [by vm_compute|].
  intros H. specialize (H _ _ eq_refl). by vm_compute in H.
Qed.

(** C9 (amended): [array_set] is initialised to two pairs; every call on
    the asynchronous path that returns has popped the pair at the front
    and appended one pair at the back, and returns the device array of
    the pair it appended; so after any sequence of calls that return,
    [array_set] holds two pairs again, and the pair popped is the one
    that has been in it longest. *)
Theorem conveyer_rotation :
  (∀ device stream, length (Conveyer.array_set (Conveyer.__init__ device stream)) = 2) ∧
  (∀ self array rt d s pair rest r self' rt',
     Conveyer.asynchronous self = Some (d, s) →
     Conveyer.array_set self = pair :: rest →
     Conveyer.__call__ array (self, rt) = (Ok r, (self', rt')) →
     ∃ pin cp,
       Conveyer.array_set self' = rest ++ [(Some pin, Some cp)] ∧
       r = buf_array cp ∧
       Conveyer.asynchronous self' = Some (d, s)) ∧
  (∀ device stream arrays rt rs self' rt',
     calls arrays (Conveyer.__init__ device stream, rt) = (Ok rs, (self', rt')) →
     length (Conveyer.array_set self') = 2 ∧ length rs = length arrays).
Proof.
  split; [done|]. split.
  - intros self array rt d s pair rest r self' rt' Hasync Hset Hcall.
    destruct (call_Ok_inv _ _ _ _ _ _ _ _ _ _ Hasync Hset Hcall)
      as (pin & cp & -> & -> & _).
    by exists pin, cp.
  - intros device stream arrays rt rs self' rt' Hcalls.
    by destruct (calls_preserve_length _ _ _ _ _ _ Hcalls) as [-> ->].
Qed.

Lemma conveyer_rotation_witness :
  ∃ rs self' rt',
    calls [two_by_three; two_by_three; two_by_three]
      (Conveyer.__init__ (Some 0%Z) (Some 7), {| fresh := 0; log := [] |})
    = (Ok rs, (self', rt')) ∧
    length (Conveyer.array_set self') = 2 ∧ length rs = 3.
Proof.
  eexists _, _, _. split; [by vm_compute|].
  destruct conveyer_rotation as (_ & _ & Hcalls).
  eapply (Hcalls (Some 0%Z) (Some 7) [two_by_three; two_by_three; two_by_three]
            {| fresh := 0; log := [] |}).
  by vm_compute.
Defined.

(** ** [concat_examples]: slots, keys and placement *)

Lemma tuple_loop examples device padding (slots : list nat) : ∀ acc,
  foldM (λ result i,
           column ← mapR (λ example, seq_getitem example i) examples;
           p ← tuple_padding padding i;
           a ← _concat_arrays column p;
           Ok (result ++ [to_device device a])) acc slots
  = (l ← mapR (slot_array examples padding) slots;
     Ok (acc ++ (to_device device <$> l))).
Proof.
  induction slots as [|i slots IH]; intros acc.
  - cbn [foldM mapR mbind result_bind fmap list_fmap]. by rewrite app_nil_r.
  - cbn [foldM mapR].
    assert (slot_array examples padding i
            = (column ← mapR (λ example, seq_getitem example i) examples;
               p ← tuple_padding padding i; _concat_arrays column p)) as -> by done.
    destruct (mapR (λ example, seq_getitem example i) examples) as [column| |];
      [|done..].
    cbn [mbind result_bind].
    destruct (tuple_padding padding i) as [p| |]; [|done..].
    cbn [mbind result_bind].
    destruct (_concat_arrays column p) as [a| |]; [|done..].
    cbn [mbind result_bind]. rewrite IH.
    destruct (mapR (slot_array examples padding) slots) as [l| |]; [|done..].
    cbn [mbind result_bind]. by rewrite fmap_cons, <- app_assoc.
Qed.

Lemma concat_examples_tuple_eq first rest device padding :
  concat_examples (TupleBatch (first :: rest)) device padding
  = (l ← mapR (slot_array (first :: rest) padding) (seq 0 (length first));
     Ok (BTuple (to_device device <$> l))).
Proof.
  unfold concat_examples. rewrite decide_False by done.
  cbn [seq_getitem lookup list_lookup mbind result_bind].
  rewrite tuple_loop.
  by destruct (mapR (slot_array (first :: rest) padding) (seq 0 (length first))).
Qed.

Lemma concat_key_eq examples device padding first_elem acc key :
  concat_key examples device padding first_elem acc key
  = (a ← key_array examples padding first_elem key;
     Ok (dict_setitem acc key (to_device device a))).
Proof.
  unfold concat_key, key_array.
  destruct (mapR _ examples) as [column| |]; [|done..]. cbn [mbind result_bind].
  by destruct (dict_padding padding first_elem (KStr key)) as [p| |].
Qed.

Lemma mapR_lookup {A B} (f : A → result B) (l : list A) (k : list B) :
  mapR f l = Ok k → length k = length l ∧ ∀ i x, l !! i = Some x →
    ∃ y, f x = Ok y ∧ k !! i = Some y.
Proof.
  revert k. induction l as [|x l IH]; intros k Hk.
  - injection Hk as <-. split; [done|]. by intros i x Hx.
  - cbn [mapR] in Hk. destruct (f x) as [y| |] eqn:Hy; [|done..].
    cbn [mbind result_bind] in Hk.
    destruct (mapR f l) as [ys| |]; [|done..]. injection Hk as <-.
    destruct (IH ys eq_refl) as [Hlen Hl]. split; [simpl; by rewrite Hlen|].
    intros [|i] x' Hx'.
    + injection Hx' as <-. by exists y.
    + by apply Hl.
Qed.

Lemma mapR_not_Ok {A B} (f : A → result B) (l : list A) x :
  x ∈ l → (∀ y, f x ≠ Ok y) → ∀ k, mapR f l ≠ Ok k.
Proof.
  intros [i Hi]%list_elem_of_lookup Hx k Hk.
  destruct (mapR_lookup f l k Hk) as [_ Hl].
  destruct (Hl i x Hi) as (y & Hy & _). by eapply Hx.
Qed.

(** The first element that raises decides the outcome. *)
Lemma mapR_first_raise {A B} (f : A → result B) (pre : list A) x post e :
  (∀ y, y ∈ pre → ∃ z, f y = Ok z) → f x = Raise e →
  mapR f (pre ++ x :: post) = Raise e.
Proof.
  intros Hpre Hx. induction pre as [|y pre IH]; simpl.
  - by rewrite Hx.
  - destruct (Hpre y) as [z ->]; [by left|]. cbn [mbind result_bind].
    rewrite IH; [done|]. intros y' Hy'. apply Hpre. by right.
Qed.

(** X2: On a batch of tuples, [concat_examples] returns, when it returns, a
    tuple with one array per slot of the first example: slot [i] holds
    the concatenation of the i-th entries of all examples with the
    padding of slot [i], placed on the requested device. *)
Theorem concat_examples_tuple (examples : list (list value)) (first_elem : list value)
    (device : option Z) (padding : padding_t) (res : batched) :
  examples !! 0 = Some first_elem →
  concat_examples (TupleBatch examples) device padding = Ok res →
  ∃ l, res = BTuple l ∧ length l = length first_elem ∧
    ∀ i, i < length first_elem →
      ∃ column p a,
        mapR (λ example, seq_getitem example i) examples = Ok column ∧
        tuple_padding padding i = Ok p ∧
        _concat_arrays column p = Ok a ∧
        l !! i = Some (to_device device a).
Proof.
  intros [rest ->]%head_cons_lookup Hcall.
  rewrite concat_examples_tuple_eq in Hcall.
  destruct (mapR _ (seq 0 (length first_elem))) as [l| |] eqn:Hl; [|done..].
  injection Hcall as <-. destruct (mapR_lookup _ _ _ Hl) as [Hlen Hslots].
  rewrite length_seq in Hlen.
  exists (to_device device <$> l). split; [done|].
  split; [by rewrite length_fmap|]. intros i Hi.
  destruct (Hslots i i) as (a & Ha & Hli); [by apply lookup_seq_lt|].
  unfold slot_array in Ha.
  destruct (mapR _ (first_elem :: rest)) as [column| |]; [|done..].
  cbn [mbind result_bind] in Ha.
  destruct (tuple_padding padding i) as [p| |]; [|done..].
  cbn [mbind result_bind] in Ha.
  exists column, p, a. by rewrite list_lookup_fmap, Hli.
Qed.

Lemma concat_examples_tuple_witness :
  ∃ l, BTuple [ {| dtype := int64; shape := [2; 2]; data := [1; 2; 3; 4]%Z;
                   resides := Gpu 0 |} ] = BTuple l ∧ length l = 1 ∧
    ∀ i, i < 1 →
      ∃ column p a,
        mapR (λ example, seq_getitem example i)
          ((λ a, [VArr a]) <$> square_int64) = Ok column ∧
        tuple_padding (PadValue None) i = Ok p ∧
        _concat_arrays column p = Ok a ∧
        l !! i = Some (to_device (Some 0%Z) a).
Proof.
  apply (concat_examples_tuple ((λ a, [VArr a]) <$> square_int64)
           [VArr {| dtype := int64; shape := [2]; data := [1%Z; 2%Z]; resides := Host |}]
           (Some 0%Z) (PadValue None)).
  - reflexivity.
  - by vm_compute.
Defined.

Lemma dict_setitem_fmap {V W} (f : V → W) (d : pydict V) key v :
  dict_setitem (prod_map id f <$> d) key (f v)
  = prod_map id f <$> dict_setitem d key v.
Proof.
  induction d as [|[k w] d IH]; [done|].
  rewrite fmap_cons. cbn [prod_map id fst snd dict_setitem].
  destruct (decide (k = key)); [done|]. by rewrite fmap_cons, IH.
Qed.

Lemma dict_loop_place examples device padding first_elem (ks : list string) :
  ∀ acc : list (string * ndarray),
  foldM (concat_key examples device padding first_elem)
    (prod_map id (to_device device) <$> acc) ks
  = (d ← foldM (concat_key examples None padding first_elem) acc ks;
     Ok (prod_map id (to_device device) <$> (d : list (string * ndarray)))).
Proof.
  induction ks as [|key ks IH]; intros acc; [done|].
  cbn [foldM]. rewrite !concat_key_eq.
  destruct (key_array examples padding first_elem key) as [a| |]; [|done..].
  cbn [mbind result_bind to_device]. rewrite dict_setitem_fmap. apply IH.
Qed.

(** In the embedding, where placement on a usable device always
    succeeds, the call with a device is the call without one followed by
    the placement of every array. *)
Lemma concat_examples_place (batch : batch_t) (device : option Z)
    (padding : padding_t) :
  concat_examples batch device padding
  = (r ← concat_examples batch None padding; Ok (place device r)).
Proof.
  destruct batch as [examples|examples|examples].
  - unfold concat_examples. case_decide; [done|].
    destruct (array_padding padding) as [p| |]; [|done..].
    cbn [mbind result_bind]. by destruct (_concat_arrays examples p).
  - destruct examples as [|first rest]; [done|].
    rewrite !concat_examples_tuple_eq.
    destruct (mapR _ (seq 0 (length first))) as [l| |]; [|done..].
    cbn [mbind result_bind place]. do 2 f_equal.
    rewrite <- list_fmap_compose. by apply list_fmap_ext.
  - destruct examples as [|first rest]; [done|].
    unfold concat_examples. rewrite decide_False by done.
    cbn [seq_getitem lookup list_lookup mbind result_bind].
    rewrite (dict_loop_place _ device _ _ _ []).
    by destruct (foldM (concat_key (first :: rest) None padding first) [] (keys first)).
Qed.

(** X4: The device argument of [concat_examples] decides where the arrays
    of a result live, not which arrays are built: whenever the call with
    a device returns, the call without a device returns too, and the
    result with the device is that result with every array sent through
    [to_device]. So a batch, or a padding, on which the call without a
    device raises gives no result on any device. *)
Theorem concat_examples_device (batch : batch_t) (device : option Z)
    (padding : padding_t) (res : batched) :
  concat_examples batch device padding = Ok res →
  ∃ r, concat_examples batch None padding = Ok r ∧ res = place device r.
Proof.
  rewrite concat_examples_place.
  destruct (concat_examples batch None padding) as [r| |]; [|done..].
  intros [= <-]. by exists r.
Qed.

Lemma concat_examples_device_witness :
  ∃ r, concat_examples (scenario_batch int64) None scenario_padding = Ok r ∧
    BDict
      [("x"%string, {| dtype := int64; shape := [2; 3];
                       data := [1; 2; 0; 3; 4; 5]%Z; resides := Gpu 0 |});
       ("y"%string, {| dtype := int64; shape := [2];
                       data := [0; 1]%Z; resides := Gpu 0 |})]
    = place (Some 0%Z) r.
Proof.
  apply (concat_examples_device (scenario_batch int64) (Some 0%Z) scenario_padding).
  by vm_compute.
Defined.

(** ** [concat_examples]: examples and padding that do not cover the first example *)

Lemma mapR_uniform_raise {A B} (f : A → result B) (l : list A) e :
  (∀ x, x ∈ l → f x = Raise e ∨ ∃ y, f x = Ok y) →
  (∃ x, x ∈ l ∧ f x = Raise e) →
  mapR f l = Raise e.
Proof.
  induction l as [|x l IH]; intros Hall (x0 & Hin & Hx0).
  - by apply elem_of_nil in Hin.
  - cbn [mapR]. destruct (Hall x) as [->|[y Hy]]; [by left|done|].
    rewrite Hy. cbn [mbind result_bind]. rewrite IH; [done| |].
    + intros x' Hx'. apply Hall. by right.
    + apply elem_of_cons in Hin as [->|Hin]; [congruence|]. by exists x0.
Qed.

Lemma dict_loop_Ok examples device padding first_elem (ks : list string) : ∀ acc res,
  foldM (concat_key examples device padding first_elem) acc ks = Ok res →
  ∀ key, key ∈ ks → ∃ a, key_array examples padding first_elem key = Ok a.
Proof.
  induction ks as [|k ks IH]; intros acc res Hfold key Hkey.
  - by apply elem_of_nil in Hkey.
  - cbn [foldM] in Hfold. rewrite concat_key_eq in Hfold.
    destruct (key_array examples padding first_elem k) as [a| |] eqn:Ha; [|done..].
    cbn [mbind result_bind] in Hfold.
    apply elem_of_cons in Hkey as [->|Hkey]; [by exists a|].
    by eapply IH.
Qed.

Lemma concat_examples_dict_Ok first rest device padding res key :
  concat_examples (DictBatch (first :: rest)) device padding = Ok res →
  key ∈ keys first →
  ∃ a, key_array (first :: rest) padding first key = Ok a.
Proof.
  unfold concat_examples. rewrite decide_False by done.
  cbn [seq_getitem lookup list_lookup mbind result_bind]. intros Hcall Hkey.
  destruct (foldM (concat_key (first :: rest) device padding first) [] (keys first))
    as [d| |] eqn:Hfold; [|done..].
  by eapply dict_loop_Ok.
Qed.

Lemma dict_getitem_cases {V} (d : pydict V) key :
  dict_getitem d (KStr key) = Raise (KeyError (KStr key))
  ∨ ∃ v, dict_getitem d (KStr key) = Ok v.
Proof. unfold dict_getitem. destruct (dict_lookup d key); [right; by eexists|by left]. Qed.

(** X5: A key of the first example that another example lacks: the call
    returns no mapping, and when the key is the first key of the first
    example it raises [KeyError] for that key, whatever the device and
    the padding. *)
Theorem concat_examples_missing_key (examples : list (pydict value))
    (first_elem example : pydict value) (device : option Z) (padding : padding_t)
    (key : string) :
  examples !! 0 = Some first_elem →
  key ∈ keys first_elem →
  example ∈ examples →
  dict_lookup example key = None →
  (∀ res, concat_examples (DictBatch examples) device padding ≠ Ok res) ∧
  (keys first_elem !! 0 = Some key →
   concat_examples (DictBatch examples) device padding = Raise (KeyError (KStr key))).
Proof.
  intros [rest ->]%head_cons_lookup Hkey Hex Hnone.
  assert (dict_getitem example (KStr key) = Raise (KeyError (KStr key))) as Hraise.
  { unfold dict_getitem. by rewrite Hnone. }
  split.
  - intros res Hcall.
    destruct (concat_examples_dict_Ok _ _ _ _ _ _ Hcall Hkey) as [a Ha].
    unfold key_array in Ha.
    destruct (mapR _ (first_elem :: rest)) as [column| |] eqn:Hcol; [|done..].
    eapply (mapR_not_Ok _ _ example Hex); [|exact Hcol].
    intros y. cbn beta. by rewrite Hraise.
  - intros Hfirst. destruct (keys first_elem) as [|k ks] eqn:Hks; [done|].
    injection Hfirst as ->.
    unfold concat_examples. rewrite decide_False by done.
    cbn [seq_getitem lookup list_lookup mbind result_bind]. rewrite Hks.
    cbn [foldM]. unfold concat_key.
    rewrite (mapR_uniform_raise _ _ (KeyError (KStr key))); [done| |].
    + intros x _. apply dict_getitem_cases.
    + by exists example.
Qed.

Lemma concat_examples_missing_key_witness :
  (∀ res, concat_examples
            (DictBatch [scenario_first int64; [("x"%string, VInt 1)]])
            None (PadValue None) ≠ Ok res) ∧
  (keys (scenario_first int64) !! 0 = Some "y"%string →
   concat_examples (DictBatch [scenario_first int64; [("x"%string, VInt 1)]])
     None (PadValue None) = Raise (KeyError (KStr "y"))).
Proof.
  apply (concat_examples_missing_key
           [scenario_first int64; [("x"%string, VInt 1)]] (scenario_first int64)
           [("x"%string, VInt 1)] None (PadValue None) "y").
  - reflexivity.
  - apply list_elem_of_In. simpl. tauto.
  - apply list_elem_of_In. simpl. tauto.
  - reflexivity.
Defined.

Lemma seq_getitem_cases {V} (t : list V) i :
  seq_getitem t i = Raise IndexError ∨ ∃ v, seq_getitem t i = Ok v.
Proof. unfold seq_getitem. destruct (t !! i); [right; by eexists|by left]. Qed.

Lemma concat_examples_tuple_Ok first rest device padding res i :
  concat_examples (TupleBatch (first :: rest)) device padding = Ok res →
  i < length first →
  ∃ a, slot_array (first :: rest) padding i = Ok a.
Proof.
  rewrite concat_examples_tuple_eq. intros Hcall Hi.
  destruct (mapR _ (seq 0 (length first))) as [l| |] eqn:Hl; [|done..].
  destruct (mapR_lookup _ _ _ Hl) as [_ Hslots].
  destruct (Hslots i i) as (a & Ha & _); [by apply lookup_seq_lt|]. by exists a.
Qed.

(** X6: An example with fewer slots than the first example: the call
    returns no tuple, and when the example is the empty tuple it raises
    [IndexError], whatever the device and the padding. *)
Theorem concat_examples_short_tuple (examples : list (list value))
    (first_elem example : list value) (device : option Z) (padding : padding_t) :
  examples !! 0 = Some first_elem →
  example ∈ examples →
  length example < length first_elem →
  (∀ res, concat_examples (TupleBatch examples) device padding ≠ Ok res) ∧
  (example = [] →
   concat_examples (TupleBatch examples) device padding = Raise IndexError).
Proof.
  intros [rest ->]%head_cons_lookup Hex Hlen.
  assert (seq_getitem example (length example) = Raise IndexError) as Hraise.
  { unfold seq_getitem. by rewrite lookup_ge_None_2. }
  split.
  - intros res Hcall.
    destruct (concat_examples_tuple_Ok _ _ _ _ _ (length example) Hcall Hlen) as [a Ha].
    unfold slot_array in Ha.
    destruct (mapR _ (first_elem :: rest)) as [column| |] eqn:Hcol; [|done..].
    eapply (mapR_not_Ok _ _ example Hex); [|exact Hcol].
    intros y. cbn beta. by rewrite Hraise.
  - intros ->. rewrite concat_examples_tuple_eq.
    destruct first_elem as [|v first_elem]; [simpl in Hlen; lia|].
    cbn [length seq mapR].
    assert (slot_array ((v :: first_elem) :: rest) padding 0 = Raise IndexError) as ->;
      [|done].
    unfold slot_array. rewrite (mapR_uniform_raise _ _ IndexError); [done| |].
    + intros x _. apply seq_getitem_cases.
    + by exists [].
Qed.

Lemma concat_examples_short_tuple_witness :
  (∀ res, concat_examples (TupleBatch [[VInt 1; VInt 2]; []]) None (PadValue None)
          ≠ Ok res) ∧
  (([] : list value) = [] →
   concat_examples (TupleBatch [[VInt 1; VInt 2]; []]) None (PadValue None)
   = Raise IndexError).
Proof.
  apply (concat_examples_short_tuple [[VInt 1; VInt 2]; []] [VInt 1; VInt 2] []
           None (PadValue None)).
  - reflexivity.
  - apply list_elem_of_In. simpl. tauto.
  - simpl. lia.
Defined.

(** X7: A per-slot padding that does not cover the first example: a tuple
    of paddings shorter than the first example, or a mapping of paddings
    without one of its keys, and the call returns nothing. *)
Theorem concat_examples_padding_incomplete :
  (∀ first rest device ps res,
     length ps < length first →
     concat_examples (TupleBatch (first :: rest)) device (PadTuple ps) ≠ Ok res) ∧
  (∀ first rest device pd key res,
     key ∈ keys first →
     dict_lookup pd key = None →
     concat_examples (DictBatch (first :: rest)) device (PadDict pd) ≠ Ok res).
Proof.
  split.
  - intros first rest device ps res Hlen Hcall.
    destruct (concat_examples_tuple_Ok _ _ _ _ _ (length ps) Hcall Hlen) as [a Ha].
    unfold slot_array in Ha.
    destruct (mapR _ (first :: rest)) as [column| |]; [|done..].
    cbn [mbind result_bind tuple_padding] in Ha.
    unfold seq_getitem in Ha. by rewrite lookup_ge_None_2 in Ha.
  - intros first rest device pd key res Hkey Hnone Hcall.
    destruct (concat_examples_dict_Ok _ _ _ _ _ _ Hcall Hkey) as [a Ha].
    unfold key_array in Ha.
    destruct (mapR _ (first :: rest)) as [column| |]; [|done..].
    cbn [mbind result_bind dict_padding dict_getitem] in Ha.
    by rewrite Hnone in Ha.
Qed.

Lemma concat_examples_padding_incomplete_witness :
  concat_examples (TupleBatch [[VInt 1; VInt 2]]) None (PadTuple [None])
  ≠ Ok (BTuple [])
  ∧ concat_examples (DictBatch [scenario_first int64]) None
      (PadDict [("x"%string, None)]) ≠ Ok (BDict []).
Proof.
  destruct concat_examples_padding_incomplete as [Htuple Hdict]. split.
  - apply Htuple. simpl. lia.
  - apply (Hdict _ _ _ _ "y"%string); [|reflexivity].
    apply list_elem_of_In. simpl. tauto.
Defined.

Lemma mapR_Forall2 {A A' B} (f : A → result B) (g : A' → result B) l l' :
  Forall2 (λ x x', f x = g x') l l' → mapR f l = mapR g l'.
Proof. induction 1 as [|x x' l l' Hx _ IH]; [done|]. cbn [mapR]. by rewrite Hx, IH. Qed.

Lemma mapR_ext_in {A B} (f g : A → result B) l :
  (∀ x, x ∈ l → f x = g x) → mapR f l = mapR g l.
Proof.
  intros H. apply mapR_Forall2, Forall2_same_length_lookup. split; [done|].
  intros i x y Hx Hy. simplify_eq. apply H. by eapply list_elem_of_lookup_2.
Qed.

Lemma foldM_ext_in {A B} (f g : A → B → result A) l : ∀ a,
  (∀ a x, x ∈ l → f a x = g a x) → foldM f a l = foldM g a l.
Proof.
  induction l as [|x l IH]; intros a H; [done|]. cbn [foldM].
  rewrite (H a x) by left. destruct (g a x) as [a'| |]; [|done..].
  cbn [mbind result_bind]. apply IH. intros a'' y Hy. apply H. by right.
Qed.

(** X8: [concat_examples] reads of the later examples only what the first
    example has: slots beyond the length of the first tuple, and keys
    that the first mapping lacks, do not change the outcome. *)
Theorem concat_examples_reads_first_structure :
  (∀ (first : list value) rest rest' device padding,
     Forall2 (λ e e' : list value, ∀ i, i < length first → e !! i = e' !! i) rest rest' →
     concat_examples (TupleBatch (first :: rest)) device padding
     = concat_examples (TupleBatch (first :: rest')) device padding) ∧
  (∀ (first : pydict value) rest rest' device padding,
     Forall2 (λ e e' : pydict value,
                ∀ key, key ∈ keys first → dict_lookup e key = dict_lookup e' key)
       rest rest' →
     concat_examples (DictBatch (first :: rest)) device padding
     = concat_examples (DictBatch (first :: rest')) device padding).
Proof.
  split.
  - intros first rest rest' device padding Hagree.
    rewrite !concat_examples_tuple_eq.
    rewrite (mapR_ext_in (slot_array (first :: rest) padding)
               (slot_array (first :: rest') padding)); [done|].
    intros i Hi%list_elem_of_lookup_1. unfold slot_array.
    rewrite (mapR_Forall2 (λ example, seq_getitem example i)
               (λ example, seq_getitem example i) (first :: rest) (first :: rest'));
      [done|].
    constructor; [done|]. eapply Forall2_impl; [exact Hagree|].
    intros e e' He. unfold seq_getitem. rewrite He; [done|].
    destruct Hi as [i' Hi']. apply lookup_seq in Hi'. lia.
  - intros first rest rest' device padding Hagree.
    unfold concat_examples. rewrite !decide_False by done.
    cbn [seq_getitem lookup list_lookup mbind result_bind].
    rewrite (foldM_ext_in (concat_key (first :: rest) device padding first)
               (concat_key (first :: rest') device padding first)); [done|].
    intros acc key Hkey. unfold concat_key.
    rewrite (mapR_Forall2 (λ example, dict_getitem example (KStr key))
               (λ example, dict_getitem example (KStr key))
               (first :: rest) (first :: rest')); [done|].
    constructor; [done|]. eapply Forall2_impl; [exact Hagree|].
    intros e e' He. unfold dict_getitem. by rewrite He.
Qed.

Lemma concat_examples_reads_first_structure_witness :
  concat_examples (TupleBatch [[VInt 1]; [VInt 2; VInt 9]]) None (PadValue None)
  = concat_examples (TupleBatch [[VInt 1]; [VInt 2]]) None (PadValue None)
  ∧ concat_examples
      (DictBatch [[("y"%string, VInt 1)]; [("y"%string, VInt 2); ("z"%string, VInt 9)]])
      None (PadValue None)
    = concat_examples
        (DictBatch [[("y"%string, VInt 1)]; [("y"%string, VInt 2)]])
        None (PadValue None).
Proof.
  destruct concat_examples_reads_first_structure as [Htuple Hdict]. split.
  - apply Htuple. constructor; [|constructor].
    intros i Hi. simpl in Hi. by replace i with 0 by lia.
  - apply Hdict. constructor; [|constructor].
    intros key [->|[]%elem_of_nil]%elem_of_cons. reflexivity.
Defined.

(** ** Columns of built-in scalars *)

(** Without ragged shapes the padded path builds the stacked array. *)
Lemma padded_eq_stacked (a0 : ndarray) (rest : list ndarray) (padding : Z) :
  Forall wf_ndarray (a0 :: rest) →
  Forall (λ a, shape a = shape a0 ∧ dtype a = dtype a0) (a0 :: rest) →
  in_range (dtype a0) padding →
  _concat_arrays_with_padding (VArr <$> a0 :: rest) padding
  = Ok (stacked (a0 :: rest) a0).
Proof.
  intros Hwf Hsame Hpad.
  assert (Forall (λ a, shape a = shape a0) (a0 :: rest)) as Hshape.
  { eapply Forall_impl; [exact Hsame|]. by intros a [? _]. }
  assert (Forall (λ a, dtype a = dtype a0) (a0 :: rest)) as Hdtype.
  { eapply Forall_impl; [exact Hsame|]. by intros a [_ ?]. }
  pose proof Hshape as [_ Hshape']%Forall_cons.
  assert (Forall (λ a, length (shape a) = length (shape a0)) rest) as Hrank.
  { eapply Forall_impl; [exact Hshape'|]. by intros a ->. }
  destruct (concat_with_padding_spec a0 rest padding Hrank Hpad)
    as (res & Hres & Hd & Hr & Hs & Hl & Hcell).
  rewrite Hres. f_equal.
  assert (result_dtype (a0 :: rest) a0 = dtype a0) as Hrd.
  { apply foldl_promote_same. by apply Forall_fmap. }
  rewrite foldl_max_same in Hs by (by apply Forall_fmap).
  set (N := numel (shape a0)).
  assert (Forall (λ l : list Z, length l = N)
            ((λ a, wrap (dtype a0) <$> data a) <$> a0 :: rest)) as Hlens.
  { apply Forall_fmap, Forall_lookup. intros j b Hb. simpl.
    rewrite length_fmap. rewrite Forall_lookup in Hwf, Hshape.
    destruct (Hwf j b Hb) as [-> _]. by rewrite (Hshape j b Hb). }
  destruct res as [d s dat r]. unfold stacked. rewrite Hrd.
  cbn [dtype shape data resides] in *. subst d s r. f_equal.
  apply list_eq. intros k.
  destruct (decide (k < length (a0 :: rest) * N)) as [Hk|Hk].
  - assert (N ≠ 0) as HN by (intros E; rewrite E in Hk; lia).
    rewrite (concat_lookup _ N k HN Hlens).
    assert (k / N < length (a0 :: rest)) as Hq.
    { apply Nat.Div0.div_lt_upper_bound. lia. }
    destruct (lookup_lt_is_Some_2 (a0 :: rest) (k / N) Hq) as [a Ha].
    rewrite list_lookup_fmap, Ha. cbn [fmap option_fmap option_map mbind option_bind].
    rewrite list_lookup_fmap.
    set (res := {| dtype := dtype a0; shape := length (a0 :: rest) :: shape a0;
                   data := dat; resides := resides a0 |}) in *.
    assert (in_bounds (unravel (shape res) k) (shape res) = true) as Hin.
    { apply in_bounds_unravel. exact Hk. }
    pose proof (getitem_in_bounds res _ Hin) as Hget.
    rewrite ravel_unravel in Hget by exact Hk.
    cbn [data res] in Hget. rewrite <- Hget.
    cbn [shape res unravel] in Hin |- *. fold N in Hin |- *.
    rewrite (Hcell _ a _ Ha Hin).
    rewrite Forall_lookup in Hshape. rewrite (Hshape _ a Ha).
    assert (k `mod` N < N) as Hm by (by apply Nat.mod_upper_bound).
    rewrite (in_bounds_unravel _ _ Hm).
    unfold getitem. rewrite (Hshape _ a Ha), (in_bounds_unravel _ _ Hm).
    rewrite (ravel_unravel _ _ Hm).
    rewrite Forall_lookup in Hwf. destruct (Hwf _ a Ha) as [Hla _].
    destruct (lookup_lt_is_Some_2 (data a) (k `mod` N)) as [v Hv].
    { rewrite Hla, (Hshape _ a Ha). exact Hm. }
    by rewrite Hv.
  - rewrite !lookup_ge_None_2; [done| |].
    + rewrite (length_concat_same _ N Hlens), length_fmap. lia.
    + rewrite Hl. cbn [numel]. fold N. lia.
Qed.

Lemma asarray_scalars (zs : list Z) :
  Forall (in_range int64) zs →
  asarray (VInt <$> zs)
  = Ok {| dtype := int64; shape := [length zs]; data := zs; resides := Host |}.
Proof.
  intros Hzs. unfold asarray. destruct (forallb _ (VInt <$> zs)) eqn:Hall.
  - rewrite length_fmap, <- list_fmap_compose. f_equal. f_equal.
    rewrite <- (list_fmap_id zs) at 2. by apply list_fmap_ext.
  - apply not_true_iff_false in Hall. destruct Hall. apply forallb_forall.
    intros v (z & -> & Hz)%list_elem_of_In%list_elem_of_fmap.
    apply bool_decide_eq_true_2. rewrite Forall_forall in Hzs. by apply Hzs.
Qed.

Lemma unstack_scalars (zs : list Z) :
  unstack {| dtype := int64; shape := [length zs]; data := zs; resides := Host |}
  = scalar0 <$> zs.
Proof.
  unfold unstack. cbn [shape dtype data resides numel].
  apply list_eq. intros i. rewrite !list_lookup_fmap.
  destruct (decide (i < length zs)) as [Hi|Hi].
  - rewrite lookup_seq_lt by done.
    destruct (lookup_lt_is_Some_2 zs i Hi) as [z Hz]. rewrite Hz.
    cbn [fmap option_fmap option_map]. unfold scalar0. do 2 f_equal.
    rewrite Nat.mul_1_r. rewrite (drop_S _ z) by done. by rewrite Nat.add_0_l.
  - rewrite lookup_seq_ge by lia. by rewrite lookup_ge_None_2 by lia.
Qed.

(** X9: A column of built-in integers (each within int64) becomes the
    one-dimensional int64 array of those integers, on the host, with or
    without a padding value: the scalars are coerced by [numpy.asarray],
    and no cell is left to pad. *)
Theorem concat_arrays_scalars (zs : list Z) (padding : option Z) :
  zs ≠ [] →
  Forall (in_range int64) zs →
  from_option (in_range int64) True padding →
  _concat_arrays (VInt <$> zs) padding
  = Ok {| dtype := int64; shape := [length zs]; data := zs; resides := Host |}.
Proof.
  intros Hne Hzs Hpad. destruct zs as [|z0 zs]; [done|].
  unfold _concat_arrays. rewrite fmap_cons. cbn [is_ndarray].
  rewrite <- fmap_cons, asarray_scalars by done.
  cbn [mbind result_bind]. rewrite unstack_scalars, fmap_cons.
  assert (Forall wf_ndarray (scalar0 z0 :: (scalar0 <$> zs))) as Hwf.
  { rewrite <- fmap_cons. apply Forall_fmap.
    eapply Forall_impl; [exact Hzs|]. intros z Hz. split; [done|].
    by constructor. }
  assert (Forall (λ a, shape a = shape (scalar0 z0) ∧ dtype a = dtype (scalar0 z0))
            (scalar0 z0 :: (scalar0 <$> zs))) as Hsame.
  { rewrite <- fmap_cons. apply Forall_fmap. by apply Forall_true. }
  assert (stacked (scalar0 z0 :: (scalar0 <$> zs)) (scalar0 z0)
          = {| dtype := int64; shape := [length (z0 :: zs)]; data := z0 :: zs;
               resides := Host |}) as Hstacked.
  { unfold stacked, result_dtype. rewrite <- !fmap_cons.
    rewrite foldl_promote_same.
    2: { rewrite <- list_fmap_compose. apply Forall_fmap. by apply Forall_true. }
    cbn [dtype shape resides scalar0]. rewrite length_fmap. f_equal.
    rewrite <- list_fmap_compose.
    revert Hzs. generalize (z0 :: zs). clear. intros l Hl.
    induction Hl as [|z l Hz _ IH]; [done|].
    rewrite fmap_cons. cbn [concat compose scalar0 data fmap list_fmap app].
    by rewrite IH, wrap_in_range. }
  destruct padding as [p|].
  - rewrite (padded_eq_stacked (scalar0 z0) (scalar0 <$> zs) p Hwf Hsame Hpad).
    by rewrite Hstacked.
  - change (_concat_arrays (VArr <$> scalar0 z0 :: (scalar0 <$> zs)) None = Ok
              {| dtype := int64; shape := [length (z0 :: zs)]; data := z0 :: zs;
                 resides := Host |}).
    rewrite (concat_plain_spec (scalar0 z0) (scalar0 <$> zs)).
    + by rewrite Hstacked.
    + apply Forall_fmap. by apply Forall_true.
Qed.

Lemma concat_arrays_scalars_witness :
  _concat_arrays (VInt <$> [0; 1]%Z) (Some 5%Z)
  = Ok {| dtype := int64; shape := [2]; data := [0; 1]%Z; resides := Host |}.
Proof.
  apply (concat_arrays_scalars [0; 1]%Z (Some 5%Z)).
  - discriminate.
  - repeat constructor; unfold in_range; simpl; lia.
  - unfold in_range; simpl; lia.
Defined.

(** X10: Only the first value of a column decides whether the column is
    coerced: a built-in scalar after an array is used as an array, and
    the call raises [TypeError] at [array[None]] without padding, and
    [AttributeError] at [array.shape] with padding (the arrays before
    the scalar having the rank of the first). *)
Theorem concat_arrays_scalar_after_array (a0 : ndarray) (pre : list ndarray) (z : Z)
    (post : list value) :
  _concat_arrays (VArr a0 :: (VArr <$> pre) ++ VInt z :: post) None = Raise TypeError ∧
  (∀ p, Forall (λ a, length (shape a) = length (shape a0)) pre →
     _concat_arrays (VArr a0 :: (VArr <$> pre) ++ VInt z :: post) (Some p)
     = Raise AttributeError).
Proof.
  split.
  - unfold _concat_arrays. cbn [is_ndarray mbind result_bind].
    rewrite app_comm_cons.
    rewrite (mapR_first_raise subscript_None (VArr a0 :: (VArr <$> pre)) (VInt z) post
               TypeError); [done| |done].
    intros y [->|(a & -> & _)%list_elem_of_fmap]%elem_of_cons; by eexists.
  - intros p Hrank. unfold _concat_arrays. cbn [is_ndarray mbind result_bind].
    unfold _concat_arrays_with_padding. cbn [attr mbind result_bind].
    by rewrite foldM_app, (max_shape_fold pre _ Hrank).
Qed.

Lemma concat_arrays_scalar_after_array_witness :
  _concat_arrays (VArr pair_of_int64 :: (VArr <$> [pair_of_int64]) ++ [VInt 3]) None
  = Raise TypeError ∧
  _concat_arrays (VArr pair_of_int64 :: (VArr <$> [pair_of_int64]) ++ [VInt 3]) (Some 0%Z)
  = Raise AttributeError.
Proof.
  destruct (concat_arrays_scalar_after_array pair_of_int64 [pair_of_int64] 3%Z [])
    as [Hnone Hsome].
  split; [exact Hnone|]. apply Hsome. by repeat constructor.
Defined.

(** ** Well-formed results *)

Lemma setitem_block_wf res i src res' :
  setitem_block res i src = Ok res' → wf_ndarray res → wf_ndarray res'.
Proof.
  unfold setitem_block. destruct (shape res) as [|n region] eqn:Hs; [done|].
  repeat case_decide; try done. destruct (fits _ _); [|done].
  cbn [negb]. intros [= <-] [Hlen Hall]. split.
  - cbn [data shape]. by rewrite length_imap, Hlen, Hs.
  - cbn [data dtype]. apply Forall_lookup. intros k z.
    rewrite list_lookup_imap. destruct (data res !! k) as [old|] eqn:Hold; [|done].
    cbn [fmap option_fmap option_map]. intros [= <-].
    assert (in_range (dtype res) old) as Hrange.
    { rewrite Forall_lookup in Hall. by eapply Hall. }
    destruct (_ && _); [apply in_range_wrap|done].
Qed.

Lemma fold_write_example_wf (l : list (nat * value)) : ∀ res res',
  foldM write_example res l = Ok res' → wf_ndarray res → wf_ndarray res'.
Proof.
  induction l as [|[i v] l IH]; intros res res' Hfold Hwf.
  - by injection Hfold as <-.
  - cbn [foldM write_example] in Hfold.
    destruct (attr v) as [src| |]; [|done..]. cbn [mbind result_bind] in Hfold.
    destruct (setitem_block res i src) as [res1| |] eqn:Hset; [|done..].
    cbn [mbind result_bind] in Hfold.
    eapply IH; [exact Hfold|]. by eapply setitem_block_wf.
Qed.

Lemma concat_arrays_with_padding_wf arrays padding res :
  _concat_arrays_with_padding arrays padding = Ok res → wf_ndarray res.
Proof.
  unfold _concat_arrays_with_padding. destruct arrays as [|first rest]; [done|].
  destruct (attr first) as [a0| |]; [|done..]. cbn [mbind result_bind].
  destruct (foldM max_shape_step (shape a0) rest) as [shp| |]; [|done..].
  cbn [mbind result_bind].
  destruct (full _ padding (dtype a0) (resides a0)) as [res0| |] eqn:Hfull; [|done..].
  cbn [mbind result_bind]. intros Hfold.
  eapply fold_write_example_wf; [exact Hfold|].
  unfold full in Hfull. case_decide as Hpad; [|done]. injection Hfull as <-.
  split; cbn [data shape dtype].
  - by rewrite length_replicate.
  - apply Forall_forall. by intros z ->%elem_of_replicate_inv.
Qed.

Lemma Forall_concat_wrap d (l : list ndarray) :
  Forall (in_range d) (concat ((λ a, wrap d <$> data a) <$> l)).
Proof.
  induction l as [|a l IH]; [constructor|].
  rewrite fmap_cons. cbn [concat]. apply Forall_app. split; [|exact IH].
  apply Forall_fmap, Forall_true. intros z. apply in_range_wrap.
Qed.

Lemma concatenate_wf xs res :
  concatenate xs = Ok res → Forall wf_ndarray xs → wf_ndarray res.
Proof.
  unfold concatenate. destruct xs as [|a0 xs']; [done|].
  destruct (shape a0) as [|h0 s0] eqn:Hs0; [done|].
  destruct (forallb _ (a0 :: xs')) eqn:Hall; [|done].
  intros [= <-] Hwf. rewrite forallb_forall in Hall. split.
  - assert (∀ d (l : list ndarray),
              (∀ a, a ∈ l → wf_ndarray a ∧ tail (shape a) = s0 ∧ shape a ≠ []) →
              length (concat ((λ a, wrap d <$> data a) <$> l))
              = sum_list (default 0 ∘ head ∘ shape <$> l) * numel s0) as Hgen.
    { intros d. induction l as [|a l IH]; intros Hl; [done|].
      rewrite !fmap_cons. cbn [concat sum_list sum_list_with].
      rewrite length_app, length_fmap, IH by (intros b Hb; apply Hl; by right).
      destruct (Hl a) as ([Hlen _] & Htl & Hne); [by left|].
      destruct (shape a) as [|h s] eqn:Hsa; [done|]. simpl in Htl. subst s.
      rewrite Hlen. cbn [compose]. rewrite Hsa. cbn [head default numel id]. lia. }
    refine (Hgen (foldl promote (dtype a0) (dtype <$> a0 :: xs')) (a0 :: xs') _).
    intros a Ha. rewrite Forall_forall in Hwf. split; [by apply Hwf|].
    apply list_elem_of_In, Hall in Ha. by apply bool_decide_eq_true in Ha.
  - exact (Forall_concat_wrap (foldl promote (dtype a0) (dtype <$> a0 :: xs'))
             (a0 :: xs')).
Qed.

Lemma asarray_inv l a :
  asarray l = Ok a → ∃ zs, l = VInt <$> zs ∧ Forall (in_range int64) zs.
Proof.
  unfold asarray. destruct (forallb _ l) eqn:Hall; [|done]. intros _.
  rewrite forallb_forall in Hall.
  exists ((λ v, match v with VInt z => z | VArr _ => 0%Z end) <$> l). split.
  - rewrite <- list_fmap_compose. rewrite <- (list_fmap_id l) at 1.
    apply list_fmap_ext. intros i v Hv%list_elem_of_lookup_2%list_elem_of_In%Hall.
    by destruct v.
  - apply Forall_fmap, Forall_forall. intros v Hv%list_elem_of_In%Hall.
    destruct v; [|done]. by apply bool_decide_eq_true in Hv.
Qed.

Lemma mapR_subscript_None_inv (l : list value) xs :
  mapR subscript_None l = Ok xs →
  ∃ arrays, l = VArr <$> arrays ∧ xs = expand_dims <$> arrays.
Proof.
  revert xs. induction l as [|v l IH]; intros xs Hxs.
  - injection Hxs as <-. by exists [].
  - cbn [mapR] in Hxs. destruct v as [z|a]; [done|].
    cbn [subscript_None mbind result_bind] in Hxs.
    destruct (mapR subscript_None l) as [ys| |]; [|done..]. injection Hxs as <-.
    destruct (IH ys eq_refl) as (arrays & -> & ->). by exists (a :: arrays).
Qed.

(** Whatever [_concat_arrays] returns has one element per cell of its
    shape, each within its dtype, when the arrays it was given have. *)
Lemma concat_arrays_wf column padding a :
  _concat_arrays column padding = Ok a → Forall wf_value column → wf_ndarray a.
Proof.
  unfold _concat_arrays. destruct column as [|first rest]; [done|].
  intros Hcall Hwf.
  assert (∃ arrays, Forall wf_value arrays ∧
            match padding with
            | Some p => _concat_arrays_with_padding arrays p
            | None => xs ← mapR subscript_None arrays; concatenate xs
            end = Ok a) as (arrays & Hwf' & Hrest).
  { destruct (is_ndarray first).
    - by exists (first :: rest).
    - destruct (asarray (first :: rest)) as [arr| |] eqn:Harr; [|done..].
      destruct (asarray_inv _ _ Harr) as (zs & Hzs & Hrange).
      rewrite Hzs, (asarray_scalars zs Hrange) in Harr. injection Harr as <-.
      cbn [mbind result_bind] in Hcall. rewrite unstack_scalars in Hcall.
      eexists. split; [|exact Hcall].
      apply Forall_fmap, Forall_fmap.
      eapply Forall_impl; [exact Hrange|]. intros z Hz. split; [done|].
      by constructor. }
  destruct padding as [p|].
  - by eapply concat_arrays_with_padding_wf.
  - destruct (mapR subscript_None arrays) as [xs| |] eqn:Hxs; [|done..].
    destruct (mapR_subscript_None_inv _ _ Hxs) as (as' & -> & ->).
    eapply concatenate_wf; [exact Hrest|].
    apply Forall_fmap. rewrite Forall_fmap in Hwf'.
    eapply Forall_impl; [exact Hwf'|]. intros b [Hlen Hall]. split; [|done].
    cbn [expand_dims data shape numel]. lia.
Qed.

(** ** The transfer channel: what is transferred *)

Lemma broadcast_index_id (s idx : list nat) :
  in_bounds idx s = true →
  zip_with (λ e i : nat, if e =? 1 then 0 else i) s idx = idx.
Proof.
  revert idx. induction s as [|d s IH]; intros [|i idx]; simpl; try done.
  intros [Hi H]%andb_prop. apply Nat.ltb_lt in Hi. rewrite IH by done.
  destruct (Nat.eqb_spec d 1); [|done]. f_equal. lia.
Qed.

Lemma assign_same_shape dst src :
  shape dst = shape src →
  length (data dst) = numel (shape dst) →
  length (data src) = numel (shape src) →
  assign dst src
  = Ok {| dtype := dtype dst; shape := shape dst;
          data := wrap (dtype dst) <$> data src; resides := resides dst |}.
Proof.
  intros Hshape Hdst Hsrc. unfold assign.
  rewrite <- Hshape, broadcast_shape_refl. do 2 f_equal.
  apply list_eq. intros k. rewrite list_lookup_imap, list_lookup_fmap.
  destruct (decide (k < numel (shape dst))) as [Hk|Hk].
  - destruct (lookup_lt_is_Some_2 (data dst) k) as [old Hold]; [lia|].
    destruct (lookup_lt_is_Some_2 (data src) k) as [v Hv]; [rewrite Hsrc, <- Hshape; lia|].
    rewrite Hold, Hv. cbn [fmap option_fmap option_map].
    rewrite broadcast_index_id by (by apply in_bounds_unravel).
    by rewrite ravel_unravel, Hv.
  - rewrite (lookup_ge_None_2 (data dst)) by lia.
    assert (data src !! k = None) as ->; [|done].
    apply lookup_ge_None_2. rewrite Hsrc, <- Hshape. lia.
Qed.

Lemma to_gpu_wf_data array :
  wf_ndarray array → wrap (dtype array) <$> data array = data array.
Proof. intros Hwf. by apply wrap_data_id. Qed.

Lemma call_alloc_wf self array rt d s pair rest :
  Conveyer.asynchronous self = Some (d, s) →
  Conveyer.array_set self = pair :: rest →
  reusable pair array = false →
  wf_ndarray array →
  Conveyer.__call__ array (self, rt)
  = (Ok (cuda.to_gpu array d),
     (Conveyer.with_array_set self
        (rest ++ [(Some {| buf_id := fresh rt; buf_array := pinned array |},
                   Some {| buf_id := S (fresh rt); buf_array := cuda.to_gpu array d |})]),
      {| fresh := S (S (fresh rt));
         log := log rt ++ [DeviceSynchronize;
                           AllocPinned (fresh rt) (nbytes array);
                           AllocDevice (S (fresh rt)) d (nbytes array);
                           HostCopy (fresh rt);
                           MemcpyAsync (fresh rt) (S (fresh rt)) s] |})).
Proof.
  intros Hasync Hset Hreuse Hwf.
  unfold Conveyer.__call__. rewrite Hasync, Hset. destruct pair as [pin cp].
  assert (match pin with
          | Some pin => if decide (nbytes (buf_array pin) ≠ nbytes array)
                        then None else Some pin
          | None => None
          end = None) as ->.
  { unfold reusable in Hreuse. cbn [fst] in Hreuse. destruct pin as [pin|]; [|done].
    apply bool_decide_eq_false in Hreuse. by rewrite decide_True. }
  cbn [buf_id buf_array]. rewrite assign_same_shape.
  - cbn [Conveyer.empty_like dtype shape resides data].
    rewrite (to_gpu_wf_data array Hwf).
    unfold emit, Conveyer.with_array_set, cuda.to_gpu, pinned.
    cbn [Conveyer.device Conveyer.stream Conveyer.array_set fresh log buf_id buf_array
         dtype shape data resides].
    rewrite <- !app_assoc. reflexivity.
  - done.
  - cbn [Conveyer.empty_like data shape]. by rewrite length_replicate.
  - by destruct Hwf.
Qed.

Lemma call_reuse_wf self array rt d s pair rest :
  Conveyer.asynchronous self = Some (d, s) →
  Conveyer.array_set self = pair :: rest →
  holds d (shape array) (dtype array) pair →
  wf_ndarray array →
  ∃ pin cp,
    pair_ids pair = (Some pin, Some cp) ∧
    Conveyer.__call__ array (self, rt)
    = (Ok (cuda.to_gpu array d),
       (Conveyer.with_array_set self
          (rest ++ [(Some {| buf_id := pin; buf_array := pinned array |},
                     Some {| buf_id := cp; buf_array := cuda.to_gpu array d |})]),
        {| fresh := fresh rt;
           log := log rt ++ [HostCopy pin; MemcpyAsync pin cp s] |})).
Proof.
  intros Hasync Hset (pin & cp & -> & Hsp & Hdp & Hlp & Hrp & Hsc & Hdc & Hrc) Hwf.
  exists (buf_id pin), (buf_id cp). split; [done|].
  rewrite (call_reuse self array rt d s pin (Some cp) rest Hasync Hset).
  2: { unfold nbytes. by rewrite Hsp, Hdp. }
  rewrite assign_same_shape; [| done | by rewrite Hsp | by destruct Hwf].
  cbn [data]. rewrite Hdp, (to_gpu_wf_data array Hwf), Hsp, Hrp, Hsc, Hdc, Hrc.
  reflexivity.
Qed.



Lemma to_device_gpu d a : (0 ≤ d)%Z → to_device (Some d) a = cuda.to_gpu a d.
Proof. intros Hd. unfold to_device. by destruct (Z.ltb_spec d 0); [lia|]. Qed.

Lemma transfers_snoc arrays a : ∀ st rs st1 r st2,
  transfers arrays st = (Ok rs, st1) →
  Conveyer.__call__ a st1 = (Ok r, st2) →
  transfers (arrays ++ [a]) st = (Ok (rs ++ [(buf_id <$> handed_out st2.1, r)]), st2).
Proof.
  induction arrays as [|b arrays IH]; intros st rs st1 r st2 Hrs Hcall.
  - injection Hrs as <- <-. cbn [app transfers].
    by rewrite (stateR_bind_Ok _ _ _ _ _ Hcall).
  - cbn [app transfers] in *. unfold mbind at 1, stateR_bind at 1 in Hrs.
    destruct (Conveyer.__call__ b st) as [[rb| |] stb] eqn:Hb; [|done..].
    rewrite (stateR_bind_Ok _ _ _ _ _ Hb).
    unfold mbind at 1, stateR_bind at 1 in Hrs.
    unfold mbind at 1, stateR_bind at 1.
    unfold mbind at 1, stateR_bind at 1 in Hrs.
    destruct (transfers arrays stb) as [[rs'| |] st'] eqn:Hrest; [|done..].
    injection Hrs as <- <-.
    by rewrite (stateR_bind_Ok _ _ _ _ _ (IH _ _ _ _ _ Hrest Hcall)).
Qed.

Lemma mod2_small m : m < 2 → m mod 2 = m.
Proof. intros. by apply Nat.mod_small. Qed.

Lemma mod2_sub m : 2 ≤ m → (m - 2) mod 2 = m mod 2.
Proof.
  intros. replace m with ((m - 2) + 1 * 2) at 2 by lia. by rewrite Nat.Div0.mod_add.
Qed.

Lemma mod2_succ m : S m mod 2 ≠ m mod 2.
Proof.
  pose proof (Nat.div_mod_eq m 2). pose proof (Nat.div_mod_eq (S m) 2).
  pose proof (Nat.mod_upper_bound m 2). pose proof (Nat.mod_upper_bound (S m) 2). lia.
Qed.

Lemma retained_snoc_0 f d arrays a :
  retained f d (arrays ++ [a]) 0 = retained f d arrays 1.
Proof.
  unfold retained. rewrite length_app. cbn [length].
  replace (length arrays + 1 + 0 - 2) with (length arrays + 1 - 2) by lia.
  destruct (decide (2 ≤ length arrays + 1)).
  - rewrite decide_True by lia. by rewrite lookup_app_l by lia.
  - by rewrite decide_False by lia.
Qed.

Lemma retained_snoc_1 f d arrays a :
  retained f d (arrays ++ [a]) 1 = pair_at f d (length arrays) a.
Proof.
  unfold retained. rewrite length_app. cbn [length].
  replace (length arrays + 1 + 1 - 2) with (length arrays) by lia.
  rewrite decide_True by lia. by rewrite list_lookup_middle.
Qed.

Lemma holds_pair_at f d k a :
  wf_ndarray a → holds d (shape a) (dtype a) (pair_at f d k a).
Proof.
  intros [Hlen _]. eexists _, _. split; [done|].
  cbn [buf_array pinned cuda.to_gpu shape dtype data resides]. done.
Qed.

(** The state a new channel is in after a stream of arrays of one shape
    and dtype, call by call. *)
Lemma transfers_same_shape d s sh dt rt :
  (0 ≤ d)%Z → ∀ arrays,
  Forall (λ a, wf_ndarray a ∧ shape a = sh ∧ dtype a = dt) arrays →
  ∃ es,
    transfers arrays (Conveyer.__init__ (Some d) (Some s), rt)
    = (Ok (imap (λ k a, (Some (fresh rt + 1 + 2 * (k mod 2)), cuda.to_gpu a d)) arrays),
       ({| Conveyer.device := Some d; Conveyer.stream := Some s;
           Conveyer.array_set := [retained (fresh rt) d arrays 0;
                                  retained (fresh rt) d arrays 1] |},
        {| fresh := fresh rt + 2 * (2 `min` length arrays); log := log rt ++ es |})) ∧
    length (filter (.= DeviceSynchronize) es) = 2 `min` length arrays.
Proof.
  intros Hd. induction arrays as [|a arrays IH] using rev_ind; intros Harrays.
  - exists []. split; [|done]. cbn [transfers imap length]. destruct rt as [f lg].
    cbn [fresh log]. rewrite app_nil_r, Nat.min_0_r, Nat.mul_0_r, Nat.add_0_r. reflexivity.
  - apply Forall_app in Harrays as [Harrays [(Hwf & Hsh & Hdt) _]%Forall_cons].
    destruct (IH Harrays) as (es & Htransfers & Hsync). clear IH.
    set (m := length arrays) in *.
    set (self1 := {| Conveyer.device := Some d; Conveyer.stream := Some s;
                     Conveyer.array_set := [retained (fresh rt) d arrays 0;
                                            retained (fresh rt) d arrays 1] |}) in *.
    set (rt1 := {| fresh := fresh rt + 2 * (2 `min` m); log := log rt ++ es |}) in *.
    assert (Conveyer.asynchronous self1 = Some (d, s)) as Hasync.
    { unfold Conveyer.asynchronous. cbn [self1 Conveyer.device Conveyer.stream].
      by destruct (Z.ltb_spec d 0); [lia|]. }
    assert (∃ es1,
              Conveyer.__call__ a (self1, rt1)
              = (Ok (cuda.to_gpu a d),
                 ({| Conveyer.device := Some d; Conveyer.stream := Some s;
                     Conveyer.array_set := [retained (fresh rt) d arrays 1;
                                            pair_at (fresh rt) d m a] |},
                  {| fresh := fresh rt + 2 * (2 `min` S m);
                     log := log rt ++ es ++ es1 |})) ∧
              length (filter (.= DeviceSynchronize) es1) + 2 `min` m = 2 `min` S m)
      as (es1 & Hcall & Hsync1).
    { destruct (decide (2 ≤ m)) as [Hm|Hm].
      - assert (is_Some (arrays !! (m - 2))) as [a' Ha'].
        { apply lookup_lt_is_Some_2. fold m. lia. }
        assert (retained (fresh rt) d arrays 0 = pair_at (fresh rt) d (m - 2) a') as Hpop.
        { unfold retained. fold m. rewrite Nat.add_0_r, decide_True by lia. by rewrite Ha'. }
        destruct (Forall_lookup_1 _ _ _ _ Harrays Ha') as (Hwf' & Hsh' & Hdt').
        destruct (call_reuse_wf self1 a rt1 d s (pair_at (fresh rt) d (m - 2) a')
                    [retained (fresh rt) d arrays 1] Hasync)
          as (pin & cp & Hids & ->); [by rewrite <- Hpop| |exact Hwf|].
        { rewrite Hsh, <- Hsh', Hdt, <- Hdt'. by apply holds_pair_at. }
        assert (pin = fresh rt + 2 * ((m - 2) mod 2) ∧
                cp = fresh rt + 1 + 2 * ((m - 2) mod 2)) as [-> ->].
        { unfold pair_ids, pair_at in Hids. injection Hids as <- <-. by split. }
        exists [HostCopy (fresh rt + 2 * ((m - 2) mod 2));
                  MemcpyAsync (fresh rt + 2 * ((m - 2) mod 2))
                              (fresh rt + 1 + 2 * ((m - 2) mod 2)) s].
        split; [|rewrite !filter_cons_False, filter_nil by done; cbn [length]; lia].
        unfold Conveyer.with_array_set, pair_at. subst rt1.
        cbn [self1 Conveyer.device Conveyer.stream app fresh log].
        rewrite (mod2_sub m Hm), <- app_assoc.
        replace (2 `min` S m) with (2 `min` m) by lia. reflexivity.
      - assert (retained (fresh rt) d arrays 0 = (None, None)) as Hpop.
        { unfold retained. fold m. by rewrite Nat.add_0_r, decide_False by lia. }
        rewrite (call_alloc_wf self1 a rt1 d s (None, None)
                   [retained (fresh rt) d arrays 1] Hasync);
          [|by rewrite <- Hpop|done|exact Hwf].
        exists [DeviceSynchronize; AllocPinned (fresh rt + 2 * m) (nbytes a);
                AllocDevice (fresh rt + 1 + 2 * m) d (nbytes a);
                HostCopy (fresh rt + 2 * m);
                MemcpyAsync (fresh rt + 2 * m) (fresh rt + 1 + 2 * m) s].
        split; [|rewrite filter_cons_True, !filter_cons_False, filter_nil by done;
                 cbn [length]; lia].
        unfold Conveyer.with_array_set, pair_at. subst rt1.
        cbn [self1 Conveyer.device Conveyer.stream app fresh log].
        rewrite (mod2_small m) by lia. rewrite <- app_assoc.
        replace (2 `min` m) with m by lia. replace (2 `min` S m) with (S m) by lia.
        replace (S (fresh rt + 2 * m)) with (fresh rt + 1 + 2 * m) by lia.
        replace (S (fresh rt + 1 + 2 * m)) with (fresh rt + 2 * S m) by lia.
        reflexivity. }
    exists (es ++ es1). split.
    + rewrite (transfers_snoc _ _ _ _ _ _ _ Htransfers Hcall).
      rewrite retained_snoc_0, retained_snoc_1, length_app, imap_app. cbn [length imap].
      fold m. rewrite Nat.add_0_r, (Nat.add_1_r m).
      unfold handed_out, Conveyer.asynchronous.
      cbn [fst Conveyer.device Conveyer.stream Conveyer.array_set].
      by destruct (Z.ltb_spec d 0); [lia|].
    + rewrite filter_app, !length_app, Hsync. cbn [length]. fold m. lia.
Qed.



(** ** The asynchronous converter on tuples *)

Lemma ready_mono dev0 (P Q : Prop) c : (P → Q) → ready dev0 P c → ready dev0 Q c.
Proof. intros HPQ [H|[HP H]]; [by left|right]. split; [by apply HPQ|done]. Qed.

Lemma asynchronous_device c d s :
  Conveyer.asynchronous c = Some (d, s) →
  Conveyer.device c = Some d ∧ Conveyer.stream c = Some s ∧ (0 ≤ d)%Z.
Proof.
  unfold Conveyer.asynchronous.
  destruct (Conveyer.device c) as [d'|]; [|done].
  destruct (Conveyer.stream c) as [s'|]; [|done].
  destruct (Z.ltb_spec d' 0); [done|]. intros [= -> ->]. by repeat split.
Qed.

Lemma ready_call dev0 a c rt :
  ready dev0 (wf_ndarray a) c →
  ∃ c' rt', Conveyer.__call__ a (c, rt) = (Ok (to_device dev0 a), (c', rt')) ∧
    Conveyer.stream c' = Conveyer.stream c ∧
    Conveyer.device c' = Conveyer.device c ∧
    (Conveyer.asynchronous c = None → rt' = rt).
Proof.
  intros [[Hsync <-]|(Hwf & d & s & rest & Hasync & -> & Hset)].
  - exists c, rt. unfold Conveyer.__call__. by rewrite Hsync.
  - destruct (asynchronous_device _ _ _ Hasync) as (_ & _ & Hd).
    rewrite (call_alloc_wf _ _ rt _ _ _ _ Hasync Hset eq_refl Hwf), to_device_gpu by done.
    eexists _, _. split; [done|]. split; [done|]. split; [done|]. by rewrite Hasync.
Qed.

Lemma column_wf (examples : list (list value)) i column :
  mapR (λ example, seq_getitem example i) examples = Ok column →
  Forall (Forall wf_value) examples → Forall wf_value column.
Proof.
  intros Hcol Hwf. destruct (mapR_lookup _ _ _ Hcol) as [Hlen Hlook].
  apply Forall_lookup. intros k v Hv.
  destruct (lookup_lt_is_Some_2 examples k) as [ex Hex].
  { rewrite <- Hlen. by eapply lookup_lt_Some. }
  destruct (Hlook k ex Hex) as (y & Hy & Hk). simplify_eq.
  unfold seq_getitem in Hy. destruct (ex !! i) as [v'|] eqn:Hi; [|done].
  injection Hy as ->.
  eapply Forall_lookup_1; [|exact Hi]. by eapply Forall_lookup_1.
Qed.

Lemma slot_array_wf examples padding i a :
  slot_array examples padding i = Ok a →
  Forall (Forall wf_value) examples → wf_ndarray a.
Proof.
  unfold slot_array. intros Hslot Hwf.
  destruct (mapR _ examples) as [column| |] eqn:Hcol; [|done..].
  cbn [mbind result_bind] in Hslot.
  destruct (tuple_padding padding i) as [p| |]; [|done..].
  cbn [mbind result_bind] in Hslot.
  eapply concat_arrays_wf; [exact Hslot|]. by eapply column_wf.
Qed.

(** One round of the first loop of the tuple branch. *)
Lemma async_slot_step examples device padding dev0 acc i self rt :
  ready dev0 (Forall (Forall wf_value) examples) (channel_of self device i) →
  ∃ self' rt',
    (_ ← ConcatWithAsyncTransfer.ensure_conveyer i device;
     column ← lift (mapR (λ example, seq_getitem example i) examples);
     p ← lift (tuple_padding padding i);
     a ← lift (_concat_arrays column p);
     a ← ConcatWithAsyncTransfer.on_conveyer i (Conveyer.__call__ a);
     mret (acc ++ [a])) (self, rt)
    = ((a ← slot_array examples padding i; Ok (acc ++ [to_device dev0 a])), (self', rt')) ∧
    ConcatWithAsyncTransfer.stream self' = ConcatWithAsyncTransfer.stream self ∧
    (∀ j, j ≠ i → ConcatWithAsyncTransfer.conveyer self' !! j
                  = ConcatWithAsyncTransfer.conveyer self !! j) ∧
    (∃ c', ConcatWithAsyncTransfer.conveyer self' !! i = Some c' ∧
           Conveyer.stream c' = Conveyer.stream (channel_of self device i) ∧
           Conveyer.device c' = Conveyer.device (channel_of self device i)) ∧
    (Conveyer.asynchronous (channel_of self device i) = None → rt' = rt).
Proof.
  intros Hready.
  set (c := channel_of self device i) in *.
  set (self1 := {| ConcatWithAsyncTransfer.stream := ConcatWithAsyncTransfer.stream self;
                   ConcatWithAsyncTransfer.conveyer :=
                     <[i := c]> (ConcatWithAsyncTransfer.conveyer self) |}).
  assert (∃ self1', ConcatWithAsyncTransfer.ensure_conveyer i device (self, rt)
                    = (Ok (), (self1', rt)) ∧
            ConcatWithAsyncTransfer.stream self1' = ConcatWithAsyncTransfer.stream self ∧
            ConcatWithAsyncTransfer.conveyer self1' = ConcatWithAsyncTransfer.conveyer self1)
    as (self1' & Hensure & Hstream1 & Hconv1).
  { unfold ConcatWithAsyncTransfer.ensure_conveyer. subst c self1. unfold channel_of.
    destruct (ConcatWithAsyncTransfer.conveyer self !! i) as [c0|] eqn:Hc0.
    - exists self. repeat split. cbn [ConcatWithAsyncTransfer.conveyer default].
      by rewrite insert_id.
    - by eexists. }
  rewrite (stateR_bind_Ok _ _ _ _ _ Hensure).
  assert (ConcatWithAsyncTransfer.conveyer self1' !! i = Some c) as Hc.
  { rewrite Hconv1. apply lookup_insert_eq. }
  assert (∀ j, j ≠ i → ConcatWithAsyncTransfer.conveyer self1' !! j
                       = ConcatWithAsyncTransfer.conveyer self !! j) as Hframe.
  { intros j Hj. rewrite Hconv1. by apply lookup_insert_ne. }
  unfold slot_array.
  destruct (mapR _ examples) as [column| |] eqn:Hcol;
    [|exists self1', rt; repeat split; [done..|by exists c]..].
  destruct (tuple_padding padding i) as [p| |] eqn:Hp;
    [|exists self1', rt; repeat split; [done..|by exists c]..].
  destruct (_concat_arrays column p) as [a| |] eqn:Ha;
    [|exists self1', rt;
      (split; [unfold mbind, stateR_bind, lift; cbn; by rewrite Ha|]);
      repeat split; [done..|by exists c]..].
  assert (slot_array examples padding i = Ok a) as Hslot.
  { unfold slot_array. by rewrite Hcol, Hp. }
  destruct (ready_call dev0 a c rt) as (c' & rt' & Hcall & Hstream' & Hdevice' & Hrt).
  { eapply ready_mono; [|exact Hready]. exact (slot_array_wf _ _ _ _ Hslot). }
  exists {| ConcatWithAsyncTransfer.stream := ConcatWithAsyncTransfer.stream self1';
            ConcatWithAsyncTransfer.conveyer :=
              <[i := c']> (ConcatWithAsyncTransfer.conveyer self1') |}, rt'.
  split; [|split; [done|split; [|split; [|done]]]].
  - unfold mbind, stateR_bind, lift, ConcatWithAsyncTransfer.on_conveyer.
    cbn [result_bind]. rewrite Ha, Hc, Hcall. reflexivity.
  - intros j Hj. cbn [ConcatWithAsyncTransfer.conveyer].
    rewrite lookup_insert_ne by done. by apply Hframe.
  - exists c'. cbn [ConcatWithAsyncTransfer.conveyer]. by rewrite lookup_insert_eq.
Qed.

Lemma stateR_bind_Raise {S A B} (m : stateR S A) (f : A → stateR S B) s e s' :
  m s = (Raise e, s') → (m ≫= f) s = (Raise e, s').
Proof. unfold mbind, stateR_bind. by intros ->. Qed.

Lemma stateR_bind_Unmodelled {S A B} (m : stateR S A) (f : A → stateR S B) s s' :
  m s = (Unmodelled, s') → (m ≫= f) s = (Unmodelled, s').
Proof. unfold mbind, stateR_bind. by intros ->. Qed.

Lemma channel_of_frame self self' device i :
  ConcatWithAsyncTransfer.stream self' = ConcatWithAsyncTransfer.stream self →
  ConcatWithAsyncTransfer.conveyer self' !! i = ConcatWithAsyncTransfer.conveyer self !! i →
  channel_of self' device i = channel_of self device i.
Proof. unfold channel_of. by intros -> ->. Qed.

(** The first loop of the tuple branch. *)
Lemma async_tuple_loop examples device padding dev0 (slots : list nat) : ∀ acc self rt,
  NoDup slots →
  (∀ i, i ∈ slots →
     ready dev0 (Forall (Forall wf_value) examples) (channel_of self device i)) →
  ∃ self' rt',
    foldS (λ result i,
             _ ← ConcatWithAsyncTransfer.ensure_conveyer i device;
             column ← lift (mapR (λ example, seq_getitem example i) examples);
             p ← lift (tuple_padding padding i);
             a ← lift (_concat_arrays column p);
             a ← ConcatWithAsyncTransfer.on_conveyer i (Conveyer.__call__ a);
             mret (result ++ [a])) acc slots (self, rt)
    = ((l ← mapR (slot_array examples padding) slots;
        Ok (acc ++ (to_device dev0 <$> l))), (self', rt')) ∧
    ConcatWithAsyncTransfer.stream self' = ConcatWithAsyncTransfer.stream self ∧
    (∀ j, j ∉ slots → ConcatWithAsyncTransfer.conveyer self' !! j
                      = ConcatWithAsyncTransfer.conveyer self !! j) ∧
    (∀ l, mapR (slot_array examples padding) slots = Ok l → ∀ i, i ∈ slots →
       ∃ c', ConcatWithAsyncTransfer.conveyer self' !! i = Some c' ∧
             Conveyer.stream c' = Conveyer.stream (channel_of self device i) ∧
             Conveyer.device c' = Conveyer.device (channel_of self device i)) ∧
    ((∀ i, i ∈ slots → Conveyer.asynchronous (channel_of self device i) = None) →
     rt' = rt).
Proof.
  induction slots as [|i slots IH]; intros acc self rt Hnodup Hready.
  - exists self, rt. cbn [foldS mapR mbind result_bind fmap list_fmap].
    rewrite app_nil_r. repeat split; try done. intros l _ i Hi. by apply elem_of_nil in Hi.
  - apply NoDup_cons in Hnodup as [Hi Hnodup].
    destruct (async_slot_step examples device padding dev0 acc i self rt)
      as (self1 & rt1 & Hstep & Hstream1 & Hframe1 & (c1 & Hc1 & Hs1 & Hd1) & Hrt1);
      [apply Hready; by left|].
    cbn [foldS mapR].
    destruct (slot_array examples padding i) as [a| |] eqn:Hslot.
    + rewrite (stateR_bind_Ok _ _ _ _ _ Hstep).
      assert (∀ j, j ∈ slots → channel_of self1 device j = channel_of self device j)
        as Hsame.
      { intros j Hj. apply channel_of_frame; [done|]. apply Hframe1. by intros ->. }
      destruct (IH (acc ++ [to_device dev0 a]) self1 rt1 Hnodup)
        as (self' & rt' & Hloop & Hstream & Hframe & Hpresent & Hrt).
      { intros j Hj. rewrite Hsame by done. apply Hready. by right. }
      exists self', rt'. split; [|split; [|split; [|split]]].
      * rewrite Hloop. cbn [mbind result_bind].
        destruct (mapR (slot_array examples padding) slots) as [l| |]; [|done..].
        cbn [mbind result_bind]. rewrite fmap_cons. by rewrite <- app_assoc.
      * by rewrite Hstream.
      * intros j Hj. apply not_elem_of_cons in Hj as [Hji Hj].
        rewrite Hframe by done. by apply Hframe1.
      * intros l Hl j Hj. cbn [mbind result_bind] in Hl.
        destruct (mapR (slot_array examples padding) slots) as [l'| |] eqn:Hl'; [|done..].
        apply elem_of_cons in Hj as [->|Hj].
        -- exists c1. by rewrite Hframe.
        -- destruct (Hpresent l' eq_refl j Hj) as (c' & Hc' & Hs' & Hd').
           exists c'. by rewrite <- Hsame.
      * intros Hsync. rewrite Hrt, Hrt1; [done|apply Hsync; by left|].
        intros j Hj. rewrite Hsame by done. apply Hsync. by right.
    + exists self1, rt1. split; [|split; [done|split; [|split; [done|]]]].
      * exact (stateR_bind_Raise _ _ _ _ _ Hstep).
      * intros j Hj. apply not_elem_of_cons in Hj as [Hji Hj]. by apply Hframe1.
      * intros Hsync. apply Hrt1, Hsync. by left.
    + exists self1, rt1. split; [|split; [done|split; [|split; [done|]]]].
      * exact (stateR_bind_Unmodelled _ _ _ _ Hstep).
      * intros j Hj. apply not_elem_of_cons in Hj as [Hji Hj]. by apply Hframe1.
      * intros Hsync. apply Hrt1, Hsync. by left.
Qed.

(** The second loop of the tuple branch. *)
Lemma async_sync_loop (slots : list nat) : ∀ self rt,
  (∀ i, i ∈ slots → is_Some (ConcatWithAsyncTransfer.conveyer self !! i)) →
  ∃ self' rt',
    foldS (λ _ i, ConcatWithAsyncTransfer.on_conveyer i Conveyer.synchronize)
          () slots (self, rt) = (Ok (), (self', rt')) ∧
    ConcatWithAsyncTransfer.stream self' = ConcatWithAsyncTransfer.stream self ∧
    ConcatWithAsyncTransfer.conveyer self' = ConcatWithAsyncTransfer.conveyer self ∧
    ((∀ i c, i ∈ slots → ConcatWithAsyncTransfer.conveyer self !! i = Some c →
        Conveyer.stream c = None) → rt' = rt).
Proof.
  induction slots as [|i slots IH]; intros self rt Hpresent.
  - by exists self, rt.
  - destruct (Hpresent i) as [c Hc]; [by left|].
    cbn [foldS].
    assert (∃ rt1, ConcatWithAsyncTransfer.on_conveyer i Conveyer.synchronize (self, rt)
                   = (Ok (), ({| ConcatWithAsyncTransfer.stream :=
                                   ConcatWithAsyncTransfer.stream self;
                                 ConcatWithAsyncTransfer.conveyer :=
                                   <[i := c]> (ConcatWithAsyncTransfer.conveyer self) |},
                              rt1)) ∧
                   (Conveyer.stream c = None → rt1 = rt)) as (rt1 & Hsync & Hrt1).
    { unfold ConcatWithAsyncTransfer.on_conveyer, Conveyer.synchronize. rewrite Hc.
      destruct (Conveyer.stream c); by eexists. }
    rewrite (stateR_bind_Ok _ _ _ _ _ Hsync), insert_id by done.
    destruct (IH {| ConcatWithAsyncTransfer.stream := ConcatWithAsyncTransfer.stream self;
                    ConcatWithAsyncTransfer.conveyer :=
                      ConcatWithAsyncTransfer.conveyer self |} rt1)
      as (self' & rt' & Hloop & Hstream & Hconv & Hrt);
      [|exists self', rt'; split; [exact Hloop|split; [exact Hstream|split; [exact Hconv|]]]].
    + intros j Hj. apply Hpresent. by right.
    + intros Hnone. rewrite Hrt.
      * apply Hrt1. eapply Hnone; [by left|done].
      * intros j c' Hj Hc'. eapply Hnone; [by right|done].
Qed.

(** The tuple branch as a whole, from the state the stream set-up
    leaves. *)
Lemma async_tuple_call first rest device padding dev0 self rt :
  let st0 := after_create_stream device (self, rt) in
  (∀ i, i < length first →
     ready dev0 (Forall (Forall wf_value) (first :: rest)) (channel_of st0.1 device i)) →
  ∃ self' rt',
    ConcatWithAsyncTransfer.__call__ (TupleBatch (first :: rest)) device padding (self, rt)
    = (concat_examples (TupleBatch (first :: rest)) dev0 padding, (self', rt')) ∧
    ConcatWithAsyncTransfer.stream self' = ConcatWithAsyncTransfer.stream st0.1 ∧
    (∀ j, length first ≤ j → ConcatWithAsyncTransfer.conveyer self' !! j
                             = ConcatWithAsyncTransfer.conveyer st0.1 !! j) ∧
    (∀ res, concat_examples (TupleBatch (first :: rest)) dev0 padding = Ok res →
       ∀ i, i < length first →
       ∃ c', ConcatWithAsyncTransfer.conveyer self' !! i = Some c' ∧
             Conveyer.stream c' = Conveyer.stream (channel_of st0.1 device i) ∧
             Conveyer.device c' = Conveyer.device (channel_of st0.1 device i)) ∧
    ((∀ i, i < length first → Conveyer.stream (channel_of st0.1 device i) = None) →
     rt' = st0.2).
Proof.
  intros st0 Hready. destruct st0 as [self0 rt0] eqn:Hst0. cbn [fst snd] in *.
  unfold ConcatWithAsyncTransfer.__call__. rewrite decide_False by done.
  rewrite (stateR_bind_Ok _ _ _ _ _ (create_stream_Ok device (self, rt))).
  fold st0. rewrite Hst0.
  assert (seq_getitem (first :: rest) 0 = Ok first) as Hfirst by done.
  assert (∀ s : ConcatWithAsyncTransfer.t * runtime,
            @lift (ConcatWithAsyncTransfer.t * runtime) _ (seq_getitem (first :: rest) 0) s
            = (Ok first, s)) as Hlift by done.
  rewrite (stateR_bind_Ok _ _ _ _ _ (Hlift _)).
  destruct (async_tuple_loop (first :: rest) device padding dev0 (seq 0 (length first))
              [] self0 rt0) as (self1 & rt1 & Hloop & Hstream1 & Hframe1 & Hpresent1 & Hrt1).
  { apply NoDup_seq. }
  { intros i Hi%elem_of_seq. apply Hready. lia. }
  rewrite concat_examples_tuple_eq.
  destruct (mapR (slot_array (first :: rest) padding) (seq 0 (length first)))
    as [l| |] eqn:Hl.
  - rewrite (stateR_bind_Ok _ _ _ _ _ Hloop).
    destruct (async_sync_loop (seq 0 (length first)) self1 rt1)
      as (self2 & rt2 & Hsync & Hstream2 & Hconv2 & Hrt2).
    { intros i Hi. destruct (Hpresent1 l eq_refl i Hi) as (c' & -> & _). by eexists. }
    rewrite (stateR_bind_Ok _ _ _ _ _ Hsync).
    exists self2, rt2. split; [done|]. split; [by rewrite Hstream2|].
    split; [|split].
    + intros j Hj. rewrite Hconv2. apply Hframe1. intros Hin%elem_of_seq. lia.
    + intros res _ i Hi. rewrite Hconv2. apply (Hpresent1 l eq_refl), elem_of_seq. lia.
    + intros Hnone. rewrite Hrt2, Hrt1; [done| |].
      * intros i Hi%elem_of_seq. unfold Conveyer.asynchronous.
        rewrite Hnone by lia. by destruct (Conveyer.device _).
      * intros i c Hi%elem_of_seq Hc.
        destruct (Hpresent1 l eq_refl i) as (c' & Hc' & Hs' & _); [apply elem_of_seq; lia|].
        simplify_eq. rewrite Hs'. apply Hnone. lia.
  - exists self1, rt1. split; [exact (stateR_bind_Raise _ _ _ _ _ Hloop)|].
    split; [done|]. split; [|split; [done|]].
    + intros j Hj. apply Hframe1. intros Hin%elem_of_seq. lia.
    + intros Hnone. apply Hrt1. intros i Hi%elem_of_seq. unfold Conveyer.asynchronous.
      rewrite Hnone by lia. by destruct (Conveyer.device _).
  - exists self1, rt1. split; [exact (stateR_bind_Unmodelled _ _ _ _ Hloop)|].
    split; [done|]. split; [|split; [done|]].
    + intros j Hj. apply Hframe1. intros Hin%elem_of_seq. lia.
    + intros Hnone. apply Hrt1. intros i Hi%elem_of_seq. unfold Conveyer.asynchronous.
      rewrite Hnone by lia. by destruct (Conveyer.device _).
Qed.

Lemma create_stream_host device st :
  host_only device → after_create_stream device st = st.
Proof.
  unfold after_create_stream, ConcatWithAsyncTransfer.create_stream.
  destruct st as [self rt], device as [d|]; [|done]. cbn [host_only from_option].
  intros Hd. destruct (ConcatWithAsyncTransfer.stream self); [done|].
  by destruct (Z.leb_spec 0 d); [lia|].
Qed.

Lemma create_stream_gpu d st :
  (0 ≤ d)%Z → is_Some (ConcatWithAsyncTransfer.stream (after_create_stream (Some d) st).1).
Proof.
  unfold after_create_stream, ConcatWithAsyncTransfer.create_stream.
  destruct st as [self rt]. intros Hd.
  destruct (ConcatWithAsyncTransfer.stream self) as [s|] eqn:Hs.
  - cbn [fst snd]. by rewrite Hs.
  - by destruct (Z.leb_spec 0 d); [|lia].
Qed.

Lemma new_channel_ready device stream (wf : Prop) :
  (∀ d, device = Some d → (0 ≤ d)%Z → wf ∧ is_Some stream) →
  ready device wf (Conveyer.__init__ device stream).
Proof.
  intros Hgpu. unfold ready, Conveyer.asynchronous.
  cbn [Conveyer.__init__ Conveyer.device Conveyer.stream Conveyer.array_set].
  destruct device as [d|]; [|by left].
  destruct (Z.ltb_spec d 0); [by left; destruct stream|].
  destruct (Hgpu d eq_refl) as [Hwf [s ->]]; [lia|]. right. split; [done|].
  by exists d, s, [(None, None)].
Qed.





Lemma host_only_synchronous c :
  host_only (Conveyer.device c) → Conveyer.asynchronous c = None.
Proof.
  unfold host_only, Conveyer.asynchronous.
  destruct (Conveyer.device c) as [d|]; [|done]. cbn [from_option]. intros Hd.
  destruct (Conveyer.stream c); [|done]. by destruct (Z.ltb_spec d 0); [|lia].
Qed.

(** ** The asynchronous converter on arrays *)


(** ** What a call never undoes *)

Lemma keeps_ret {A} (a : A) : keeps (mret a).
Proof. by intros self rt. Qed.

Lemma keeps_lift {A} (r : result A) : keeps (lift r).
Proof. by intros self rt. Qed.

Lemma keeps_bind {A B} (m : stateR (ConcatWithAsyncTransfer.t * runtime) A)
    (f : A → stateR (ConcatWithAsyncTransfer.t * runtime) B) :
  keeps m → (∀ a, keeps (f a)) → keeps (m ≫= f).
Proof.
  intros Hm Hf self rt. specialize (Hm self rt).
  unfold mbind, stateR_bind. destruct (m (self, rt)) as [[a| |] [self1 rt1]]; [|done..].
  cbn [fst snd] in Hm. destruct Hm as [Hstream Hconv].
  destruct (Hf a self1 rt1) as [Hstream' Hconv']. split; [by rewrite Hstream'|].
  intros j Hj. by apply Hconv', Hconv.
Qed.

Lemma keeps_foldS {A B} (f : A → B → stateR (ConcatWithAsyncTransfer.t * runtime) A) l :
  (∀ a b, keeps (f a b)) → ∀ a, keeps (foldS f a l).
Proof.
  intros Hf. induction l as [|b l IH]; intros a; cbn [foldS].
  - apply keeps_ret.
  - apply keeps_bind; [apply Hf|done].
Qed.

Lemma keeps_ensure_conveyer i device :
  keeps (ConcatWithAsyncTransfer.ensure_conveyer i device).
Proof.
  intros self rt. unfold ConcatWithAsyncTransfer.ensure_conveyer.
  destruct (ConcatWithAsyncTransfer.conveyer self !! i) eqn:Hi; [done|].
  split; [done|]. intros j Hj. cbn [fst snd ConcatWithAsyncTransfer.conveyer].
  destruct (decide (j = i)) as [->|Hji]; [by rewrite lookup_insert_eq|].
  by rewrite lookup_insert_ne.
Qed.

Lemma keeps_on_conveyer {A} i (m : stateR (Conveyer.t * runtime) A) :
  keeps (ConcatWithAsyncTransfer.on_conveyer i m).
Proof.
  intros self rt. unfold ConcatWithAsyncTransfer.on_conveyer.
  destruct (ConcatWithAsyncTransfer.conveyer self !! i) as [c|] eqn:Hi; [|done].
  destruct (m (c, rt)) as [r [c' rt']]. split; [done|].
  intros j Hj. cbn [fst snd ConcatWithAsyncTransfer.conveyer].
  destruct (decide (j = i)) as [->|Hji]; [by rewrite lookup_insert_eq|].
  by rewrite lookup_insert_ne.
Qed.

Lemma keeps_branches batch device padding :
  keeps (match batch with
         | TupleBatch examples =>
             first_elem ← lift (seq_getitem examples 0);
             result ← foldS (λ result i,
                         _ ← ConcatWithAsyncTransfer.ensure_conveyer i device;
                         column ← lift (mapR (λ example, seq_getitem example i) examples);
                         p ← lift (tuple_padding padding i);
                         a ← lift (_concat_arrays column p);
                         a ← ConcatWithAsyncTransfer.on_conveyer i (Conveyer.__call__ a);
                         mret (result ++ [a]))
                       [] (seq 0 (length first_elem));
             _ ← foldS (λ _ i, ConcatWithAsyncTransfer.on_conveyer i Conveyer.synchronize)
                   () (seq 0 (length first_elem));
             mret (BTuple result)
         | DictBatch examples =>
             first_elem ← lift (seq_getitem examples 0);
             let i : option nat := None in
             result ← foldS (λ result key,
                         i ← lift (ConcatWithAsyncTransfer.load_local "i" i);
                         _ ← ConcatWithAsyncTransfer.ensure_conveyer i device;
                         column ← lift (mapR (λ example, dict_getitem example (KInt i))
                                          examples);
                         p ← lift (dict_padding padding first_elem (KInt i));
                         a ← lift (_concat_arrays column p);
                         a ← ConcatWithAsyncTransfer.on_conveyer i (Conveyer.__call__ a);
                         mret (dict_setitem result key a))
                       [] (keys first_elem);
             _ ← foldS (λ _ key,
                     i ← lift (ConcatWithAsyncTransfer.load_local "i" i);
                     ConcatWithAsyncTransfer.on_conveyer i Conveyer.synchronize)
                   () (keys first_elem);
             mret (BDict result)
         | ArrayBatch examples =>
             p ← lift (array_padding padding);
             a ← lift (_concat_arrays examples p);
             mret (BArray (to_device device a))
         end).
Proof.
  destruct batch;
    repeat first [ apply keeps_ret | apply keeps_lift | apply keeps_ensure_conveyer
                 | apply keeps_on_conveyer | apply keeps_foldS; intros
                 | apply keeps_bind; [|intros] ].
Qed.

(** X17: What no call undoes, whatever the batch and however the call ends:
    a stream the converter has (given to the constructor or created by
    an earlier call) is kept; without one, the call creates one exactly
    when the batch is not empty and a device [d >= 0] is asked for, and
    it does so before it looks at the examples; and every slot that has
    a channel keeps having one. *)
Theorem async_state_only_grows (batch : batch_t) (device : option Z)
    (padding : padding_t) (self : ConcatWithAsyncTransfer.t) (rt : runtime) :
  ConcatWithAsyncTransfer.stream
    (ConcatWithAsyncTransfer.__call__ batch device padding (self, rt)).2.1
  = match ConcatWithAsyncTransfer.stream self, device with
    | Some s, _ => Some s
    | None, Some d => if decide (len batch ≠ 0 ∧ (0 ≤ d)%Z) then Some (fresh rt) else None
    | None, None => None
    end ∧
  ∀ j, is_Some (ConcatWithAsyncTransfer.conveyer self !! j) →
       is_Some (ConcatWithAsyncTransfer.conveyer
                  (ConcatWithAsyncTransfer.__call__ batch device padding (self, rt)).2.1 !! j).
Proof.
  unfold ConcatWithAsyncTransfer.__call__.
  destruct (decide (len batch = 0)) as [Hlen|Hlen].
  - cbn [lift fst snd]. split; [|done].
    destruct (ConcatWithAsyncTransfer.stream self), device; try done.
    by rewrite decide_False by tauto.
  - rewrite (stateR_bind_Ok _ _ _ _ _ (create_stream_Ok device (self, rt))).
    destruct (after_create_stream device (self, rt)) as [self0 rt0] eqn:Hst0.
    destruct (keeps_branches batch device padding self0 rt0) as [Hstream Hconv].
    assert (ConcatWithAsyncTransfer.conveyer self0 = ConcatWithAsyncTransfer.conveyer self)
      as Hconv0.
    { pose proof (create_stream_conveyer device (self, rt)) as H.
      by rewrite Hst0 in H. }
    split; [|intros j Hj; apply Hconv; by rewrite Hconv0].
    etransitivity; [exact Hstream|]. clear Hstream Hconv.
    revert Hst0. unfold after_create_stream, ConcatWithAsyncTransfer.create_stream.
    destruct (ConcatWithAsyncTransfer.stream self) as [s|] eqn:Hs, device as [d|];
      try (by intros [= <- _]).
    destruct (Z.leb_spec 0 d).
    + rewrite decide_True by done. by intros [= <- _].
    + rewrite decide_False by lia. by intros [= <- _].
Qed.

(** ** Transfers are waited for *)

Lemma traced_pure {A} n (r : result A) : traced n (lift r).
Proof.
  intros self rt. split; [intros j c Hc; by exists c|].
  exists []. by rewrite app_nil_r.
Qed.

Lemma traced_ret {A} n (a : A) : traced n (mret a).
Proof. apply (traced_pure n (Ok a)). Qed.

Lemma traced_bind {A B} n (m : stateR (ConcatWithAsyncTransfer.t * runtime) A)
    (f : A → stateR (ConcatWithAsyncTransfer.t * runtime) B) :
  traced n m → (∀ a, traced n (f a)) → traced n (m ≫= f).
Proof.
  intros Hm Hf self rt. specialize (Hm self rt).
  unfold mbind, stateR_bind. destruct (m (self, rt)) as [[a| |] [self1 rt1]]; [|done..].
  cbn [fst snd] in Hm. destruct Hm as [Hkeep (es1 & Hlog1 & Hcopy1)].
  destruct (Hf a self1 rt1) as [Hkeep' (es2 & Hlog2 & Hcopy2)]. split.
  - intros j c Hc. destruct (Hkeep j c Hc) as (c1 & Hc1 & Hs1).
    destruct (Hkeep' j c1 Hc1) as (c2 & Hc2 & Hs2). exists c2. by rewrite Hs2.
  - exists (es1 ++ es2). split; [by rewrite Hlog2, Hlog1, app_assoc|].
    rewrite existsb_app. intros [H1|H2]%orb_prop.
    + destruct (Hcopy1 H1) as (j & c & Hj & Hc & Hs).
      destruct (Hkeep' j c Hc) as (c2 & Hc2 & Hs2). exists j, c2. by rewrite Hs2.
    + by apply Hcopy2.
Qed.

Lemma traced_foldS {A B} n (f : A → B → stateR (ConcatWithAsyncTransfer.t * runtime) A) l :
  (∀ a b, b ∈ l → traced n (f a b)) → ∀ a, traced n (foldS f a l).
Proof.
  induction l as [|b l IH]; intros Hf a; cbn [foldS].
  - apply traced_ret.
  - apply traced_bind; [apply Hf; by left|]. intros a'. apply IH.
    intros a'' b' Hb'. apply Hf. by right.
Qed.

Lemma traced_ensure_conveyer n i device :
  traced n (ConcatWithAsyncTransfer.ensure_conveyer i device).
Proof.
  intros self rt. unfold ConcatWithAsyncTransfer.ensure_conveyer.
  destruct (ConcatWithAsyncTransfer.conveyer self !! i) eqn:Hi.
  - split; [intros j c Hc; by exists c|]. exists []. by rewrite app_nil_r.
  - split; [|exists []; by rewrite app_nil_r].
    intros j c Hc. exists c. split; [|done]. cbn [fst snd ConcatWithAsyncTransfer.conveyer].
    rewrite lookup_insert_ne; [done|]. intros ->. by rewrite Hi in Hc.
Qed.

Lemma call_trace array c rt :
  Conveyer.stream (Conveyer.__call__ array (c, rt)).2.1 = Conveyer.stream c ∧
  ∃ es, log (Conveyer.__call__ array (c, rt)).2.2 = log rt ++ es ∧
    (existsb is_memcpy es = true → is_Some (Conveyer.stream c)).
Proof.
  unfold Conveyer.__call__.
  destruct (Conveyer.asynchronous c) as [[d s]|] eqn:Hasync.
  2: { split; [done|]. exists []. by rewrite app_nil_r. }
  destruct (asynchronous_device _ _ _ Hasync) as (_ & Hs & _).
  assert (∀ es : list event, existsb is_memcpy es = true → is_Some (Conveyer.stream c))
    as Hany by (by rewrite Hs).
  destruct (Conveyer.array_set c) as [|[pin cp] rest].
  { split; [done|]. exists []. by rewrite app_nil_r. }
  destruct (match pin with
            | Some pin => if decide (nbytes (buf_array pin) ≠ nbytes array)
                          then None else Some pin
            | None => None
            end) as [pin'|].
  - destruct (assign (buf_array pin') array) as [filled| |].
    + destruct cp as [cp|]; (split; [done|]); unfold emit; cbn [fst snd log];
        rewrite <- ?app_assoc; by eexists.
    + split; [done|]. exists []. by rewrite app_nil_r.
    + split; [done|]. exists []. by rewrite app_nil_r.
  - cbn [buf_array buf_id].
    destruct (assign (Conveyer.empty_like array Host) array) as [filled| |];
      (split; [done|]); unfold emit; cbn [fst snd log]; rewrite <- ?app_assoc; by eexists.
Qed.

Lemma synchronize_trace c rt :
  (Conveyer.synchronize (c, rt)).1 = Ok () ∧
  (Conveyer.synchronize (c, rt)).2.1 = c ∧
  log (Conveyer.synchronize (c, rt)).2.2
  = log rt ++ match Conveyer.stream c with
              | Some _ => [DeviceSynchronize]
              | None => []
              end.
Proof.
  unfold Conveyer.synchronize. destruct (Conveyer.stream c); [done|].
  by rewrite app_nil_r.
Qed.

Lemma traced_on_conveyer_call n i array :
  i < n → traced n (ConcatWithAsyncTransfer.on_conveyer i (Conveyer.__call__ array)).
Proof.
  intros Hi self rt. unfold ConcatWithAsyncTransfer.on_conveyer.
  destruct (ConcatWithAsyncTransfer.conveyer self !! i) as [c|] eqn:Hc.
  2: { split; [intros j c Hj; by exists c|]. exists []. by rewrite app_nil_r. }
  destruct (call_trace array c rt) as [Hstream (es & Hlog & Hcopy)].
  destruct (Conveyer.__call__ array (c, rt)) as [r [c' rt']].
  cbn [fst snd ConcatWithAsyncTransfer.conveyer] in *. split.
  - intros j c0 Hj. destruct (decide (j = i)) as [->|Hji].
    + exists c'. rewrite lookup_insert_eq. split; [done|]. by simplify_eq.
    + exists c0. by rewrite lookup_insert_ne.
  - exists es. split; [done|]. intros Hes. exists i, c'.
    rewrite lookup_insert_eq, Hstream. auto.
Qed.

Lemma traced_first_loop n examples device padding slots acc :
  (∀ i, i ∈ slots → i < n) →
  traced n (foldS (λ result i,
                     _ ← ConcatWithAsyncTransfer.ensure_conveyer i device;
                     column ← lift (mapR (λ example, seq_getitem example i) examples);
                     p ← lift (tuple_padding padding i);
                     a ← lift (_concat_arrays column p);
                     a ← ConcatWithAsyncTransfer.on_conveyer i (Conveyer.__call__ a);
                     mret (result ++ [a])) acc slots).
Proof.
  intros Hslots. apply traced_foldS. intros result i Hi.
  repeat first [ apply traced_ret | apply traced_pure | apply traced_ensure_conveyer
               | apply traced_on_conveyer_call; by apply Hslots
               | apply traced_bind; [|intros] ].
Qed.

(** The second loop appends synchronisations only, one for every slot
    whose channel has a stream. *)
Lemma sync_loop_trace (slots : list nat) : ∀ self rt self' rt',
  foldS (λ _ i, ConcatWithAsyncTransfer.on_conveyer i Conveyer.synchronize)
        () slots (self, rt) = (Ok (), (self', rt')) →
  ∃ k, log rt' = log rt ++ replicate k DeviceSynchronize ∧
    ∀ j c, j ∈ slots → ConcatWithAsyncTransfer.conveyer self !! j = Some c →
           is_Some (Conveyer.stream c) → 0 < k.
Proof.
  induction slots as [|i slots IH]; intros self rt self' rt' Hloop.
  - injection Hloop as <- <-. exists 0. rewrite app_nil_r. split; [done|].
    intros j c Hj. by apply elem_of_nil in Hj.
  - cbn [foldS] in Hloop. unfold mbind, stateR_bind in Hloop.
    unfold ConcatWithAsyncTransfer.on_conveyer at 1 in Hloop.
    destruct (ConcatWithAsyncTransfer.conveyer self !! i) as [c|] eqn:Hc; [|done].
    destruct (synchronize_trace c rt) as (Hr & Hc' & Hlog).
    destruct (Conveyer.synchronize (c, rt)) as [r [c' rt1]].
    cbn [fst snd] in Hr, Hc', Hlog. subst r c'.
    rewrite insert_id in Hloop by done.
    destruct (IH _ _ _ _ Hloop) as (k & Hlog' & Hk).
    destruct (Conveyer.stream c) as [s|] eqn:Hs.
    + exists (S k). split; [rewrite Hlog', Hlog, <- app_assoc; done|]. intros; lia.
    + exists k. rewrite app_nil_r in Hlog. split; [by rewrite Hlog', Hlog|].
      intros j c0 [->|Hj]%elem_of_cons Hc0 Hsome.
      * simplify_eq. rewrite Hs in Hsome. by destruct Hsome.
      * by eapply Hk.
Qed.

Lemma last_replicate {A} (l : list A) k x :
  0 < k → last (l ++ replicate k x) = Some x.
Proof.
  destruct k as [|k]; [lia|]. intros _.
  by rewrite replicate_S_end, app_assoc, last_snoc.
Qed.

Lemma create_stream_log device self rt :
  ∃ es, log (after_create_stream device (self, rt)).2 = log rt ++ es ∧
        existsb is_memcpy es = false.
Proof.
  unfold after_create_stream, ConcatWithAsyncTransfer.create_stream.
  destruct device as [d|], (ConcatWithAsyncTransfer.stream self);
    try destruct (0 <=? d)%Z; cbn [fst snd log];
    first [ by eexists | exists []; by rewrite app_nil_r ].
Qed.

(** X18: Every copy is waited for. When a call on a batch of tuples returns
    and has started an asynchronous copy, the last thing it has issued
    to the runtime is a device synchronisation (the second loop over the
    slots): the arrays it returns are complete. This holds in every
    state of the converter. *)
Theorem async_tuple_copies_are_awaited (examples : list (list value))
    (device : option Z) (padding : padding_t)
    (self : ConcatWithAsyncTransfer.t) (rt : runtime)
    (r : batched) (self' : ConcatWithAsyncTransfer.t) (rt' : runtime) :
  ConcatWithAsyncTransfer.__call__ (TupleBatch examples) device padding (self, rt)
  = (Ok r, (self', rt')) →
  existsb is_memcpy (emitted rt rt') = true →
  last (log rt') = Some DeviceSynchronize.
Proof.
  unfold ConcatWithAsyncTransfer.__call__.
  destruct (decide (len (TupleBatch examples) = 0)) as [|Hlen]; [done|].
  rewrite (stateR_bind_Ok _ _ _ _ _ (create_stream_Ok device (self, rt))).
  destruct (create_stream_log device self rt) as (es0 & Hlog0 & Hes0).
  destruct (after_create_stream device (self, rt)) as [self0 rt0]. cbn [snd] in Hlog0.
  destruct examples as [|first rest]; [done|].
  assert (∀ s : ConcatWithAsyncTransfer.t * runtime,
            @lift (ConcatWithAsyncTransfer.t * runtime) _ (seq_getitem (first :: rest) 0) s
            = (Ok first, s)) as Hlift by done.
  rewrite (stateR_bind_Ok _ _ _ _ _ (Hlift _)).
  pose proof (traced_first_loop (length first) (first :: rest) device padding
                (seq 0 (length first)) [] (λ i Hi, proj2 (proj1 (elem_of_seq _ _ _) Hi))
                self0 rt0) as [_ (es1 & Hlog1 & Hcopy1)].
  unfold mbind at 1, stateR_bind at 1.
  destruct (foldS _ [] (seq 0 (length first)) (self0, rt0)) as [[l| |] [self1 rt1]];
    [|done..].
  cbn [fst snd] in Hlog1, Hcopy1.
  unfold mbind at 1, stateR_bind at 1.
  destruct (foldS _ () (seq 0 (length first)) (self1, rt1)) as [[[]| |] [self2 rt2]] eqn:Hsync;
    [|done..].
  intros [= <- <- <-] Hcopy.
  destruct (sync_loop_trace _ _ _ _ _ Hsync) as (k & Hlog2 & Hk).
  rewrite Hlog2. apply last_replicate.
  assert (emitted rt rt2 = es0 ++ es1 ++ replicate k DeviceSynchronize) as Hemitted.
  { unfold emitted. rewrite Hlog2, Hlog1, Hlog0, <- !app_assoc. by rewrite drop_app_length. }
  rewrite Hemitted, !existsb_app, Hes0 in Hcopy. cbn [orb] in Hcopy.
  apply orb_prop in Hcopy as [Hcopy|Hcopy].
  - destruct (Hcopy1 Hcopy) as (j & c & Hj & Hc & Hs).
    apply (Hk j c); [apply elem_of_seq; lia|done..].
  - exfalso. clear -Hcopy. induction k as [|k IH]; [done|]. by apply IH.
Qed.

Lemma async_tuple_copies_are_awaited_witness :
  last (log (ConcatWithAsyncTransfer.__call__
               (TupleBatch [[VArr pair_of_int64]; [VArr pair_of_int64]])
               (Some 0%Z) (PadValue None)
               (ConcatWithAsyncTransfer.__init__ None, {| fresh := 0; log := [] |})).2.2)
  = Some DeviceSynchronize.
Proof.
  eapply (async_tuple_copies_are_awaited [[VArr pair_of_int64]; [VArr pair_of_int64]]
            (Some 0%Z) (PadValue None)
            (ConcatWithAsyncTransfer.__init__ None) {| fresh := 0; log := [] |}).
  - vm_compute. reflexivity.
  - vm_compute. reflexivity.
Defined.

(** ** The device of a slot *)

Lemma fixes_devices_pure {A} (r : result A) : fixes_devices (lift r).
Proof. intros self rt j c Hc. by exists c. Qed.

Lemma fixes_devices_ret {A} (a : A) : fixes_devices (mret a).
Proof. apply (fixes_devices_pure (Ok a)). Qed.

Lemma fixes_devices_bind {A B} (m : stateR (ConcatWithAsyncTransfer.t * runtime) A)
    (f : A → stateR (ConcatWithAsyncTransfer.t * runtime) B) :
  fixes_devices m → (∀ a, fixes_devices (f a)) → fixes_devices (m ≫= f).
Proof.
  intros Hm Hf self rt j c Hc. destruct (Hm self rt j c Hc) as (c1 & Hc1 & Hd1).
  unfold mbind, stateR_bind.
  destruct (m (self, rt)) as [[a| |] [self1 rt1]]; [|by exists c1..].
  cbn [fst snd] in Hc1. destruct (Hf a self1 rt1 j c1 Hc1) as (c2 & Hc2 & Hd2).
  exists c2. by rewrite Hd2.
Qed.

Lemma fixes_devices_foldS {A B}
    (f : A → B → stateR (ConcatWithAsyncTransfer.t * runtime) A) l :
  (∀ a b, fixes_devices (f a b)) → ∀ a, fixes_devices (foldS f a l).
Proof.
  intros Hf. induction l as [|b l IH]; intros a; cbn [foldS].
  - apply fixes_devices_ret.
  - apply fixes_devices_bind; [apply Hf|done].
Qed.

Lemma fixes_devices_create_stream device :
  fixes_devices (ConcatWithAsyncTransfer.create_stream device).
Proof.
  intros self rt j c Hc. exists c. split; [|done].
  pose proof (create_stream_conveyer device (self, rt)) as Hconv.
  unfold after_create_stream in Hconv. by rewrite Hconv.
Qed.

Lemma fixes_devices_ensure_conveyer i device :
  fixes_devices (ConcatWithAsyncTransfer.ensure_conveyer i device).
Proof.
  intros self rt j c Hc. unfold ConcatWithAsyncTransfer.ensure_conveyer.
  destruct (ConcatWithAsyncTransfer.conveyer self !! i) eqn:Hi; [by exists c|].
  exists c. split; [|done]. cbn [fst snd ConcatWithAsyncTransfer.conveyer].
  rewrite lookup_insert_ne; [done|]. intros ->. by rewrite Hi in Hc.
Qed.

Lemma call_device array c rt :
  Conveyer.device (Conveyer.__call__ array (c, rt)).2.1 = Conveyer.device c.
Proof.
  unfold Conveyer.__call__.
  destruct (Conveyer.asynchronous c) as [[d s]|]; [|done].
  destruct (Conveyer.array_set c) as [|[pin cp] rest]; [done|].
  destruct (match pin with
            | Some pin => if decide (nbytes (buf_array pin) ≠ nbytes array)
                          then None else Some pin
            | None => None
            end) as [pin'|].
  - destruct (assign (buf_array pin') array) as [filled| |]; [|done..].
    by destruct cp.
  - cbn [buf_array buf_id].
    by destruct (assign (Conveyer.empty_like array Host) array).
Qed.

Lemma fixes_devices_on_conveyer {A} i (m : stateR (Conveyer.t * runtime) A) :
  (∀ c rt, Conveyer.device (m (c, rt)).2.1 = Conveyer.device c) →
  fixes_devices (ConcatWithAsyncTransfer.on_conveyer i m).
Proof.
  intros Hm self rt j c Hc. unfold ConcatWithAsyncTransfer.on_conveyer.
  destruct (ConcatWithAsyncTransfer.conveyer self !! i) as [ci|] eqn:Hi; [|by exists c].
  specialize (Hm ci rt). destruct (m (ci, rt)) as [r [c' rt']].
  cbn [fst snd ConcatWithAsyncTransfer.conveyer] in *.
  destruct (decide (j = i)) as [->|Hji].
  - exists c'. rewrite lookup_insert_eq. split; [done|]. by simplify_eq.
  - exists c. by rewrite lookup_insert_ne.
Qed.

Lemma synchronize_device c rt :
  Conveyer.device (Conveyer.synchronize (c, rt)).2.1 = Conveyer.device c.
Proof. unfold Conveyer.synchronize. by destruct (Conveyer.stream c). Qed.

(** Every call, on any batch and however it ends, keeps the registered
    channels and their devices. *)
Lemma fixes_devices_call batch device padding :
  fixes_devices (ConcatWithAsyncTransfer.__call__ batch device padding).
Proof.
  unfold ConcatWithAsyncTransfer.__call__.
  destruct (decide (len batch = 0)); [apply fixes_devices_pure|].
  apply fixes_devices_bind; [apply fixes_devices_create_stream|]. intros _.
  destruct batch;
    repeat first [ apply fixes_devices_ret | apply fixes_devices_pure
                 | apply fixes_devices_ensure_conveyer
                 | apply fixes_devices_on_conveyer;
                   first [ apply call_device | apply synchronize_device ]
                 | apply fixes_devices_foldS; intros
                 | apply fixes_devices_bind; [|intros] ].
Qed.

Lemma after_calls_devices cs : ∀ st j c,
  ConcatWithAsyncTransfer.conveyer st.1 !! j = Some c →
  ∃ c', ConcatWithAsyncTransfer.conveyer (after_calls cs st).1 !! j = Some c' ∧
        Conveyer.device c' = Conveyer.device c.
Proof.
  induction cs as [|[[batch device] padding] cs IH]; intros [self rt] j c Hc.
  - by exists c.
  - destruct (fixes_devices_call batch device padding self rt j c Hc) as (c1 & Hc1 & Hd1).
    destruct (IH _ j c1 Hc1) as (c2 & Hc2 & Hd2). exists c2. by rewrite Hd2.
Qed.


